(** * Game of 24 -- Tree-of-Thoughts beam search

    A shallow embedding of the two notebooks of the repository,
    [Tree-of-thoughts_heu(gpt-4o-mini).ipynb] (module [Heu]) and
    [Tree-of-thoughts_CoT(gemini).ipynb] (module [CoT]), and the
    properties of their expression evaluator, scorer, proposal adapter
    and search controller.

    Conventions of the embedding.
    - Python [int] values are [Z].  Python [float] values are modelled as
      exact rationals ([Q]): finite values, no rounding, no overflow.
      Where the rounding or the overflow of binary64 arithmetic decides
      what the code does, it is modelled: [float_of_int] is [float(n)]
      with its rounding and its [OverflowError], and the module [IEEE]
      holds the evaluator and the scorer on binary64 floats, which the
      filter of the heuristic candidates uses.
    - A Python exception is a value of [exn]; code that may raise returns
      [result].
    - Python's rendering of a number inside a string ([repr]) is not
      reconstructed: it is the section variable [repr_float]. *)

From Stdlib Require Import List String Ascii Bool Arith ZArith QArith Qabs.
From Stdlib Require Import Lia Lqa Permutation Sorted.
From Stdlib Require Import Qround.
From Stdlib Require PrimFloat FloatOps SpecFloat.
Import ListNotations.

Local Open Scope list_scope.
Local Open Scope string_scope.

(** ** Exceptions and the error monad *)

Inductive exn : Type :=
| IndexError (msg : string)
| ZeroDivisionError (msg : string)
| ValueError (msg : string)
| TypeError (msg : string)
| KeyError (msg : string)
| AttributeError (msg : string)
| GraphRecursionError (msg : string)
| OverflowError (msg : string)
| ProposalError (msg : string).

Inductive result (A : Type) : Type :=
| Ok (a : A)
| Raise (e : exn).

Arguments Ok {A} a.
Arguments Raise {A} e.

Definition bind {A B : Type} (c : result A) (k : A -> result B) : result B :=
  match c with
  | Ok a => k a
  | Raise e => Raise e
  end.

Notation "x <- c ;; k" := (bind c (fun x => k))
  (at level 61, c at next level, right associativity).

(** [repr(e)] of an exception: class name and quoted message (Python's
    choice between the two quote characters is not reproduced). *)
Definition repr_exn (e : exn) : string :=
  match e with
  | IndexError m => "IndexError('" ++ m ++ "')"
  | ZeroDivisionError m => "ZeroDivisionError('" ++ m ++ "')"
  | ValueError m => "ValueError('" ++ m ++ "')"
  | TypeError m => "TypeError('" ++ m ++ "')"
  | KeyError m => "KeyError('" ++ m ++ "')"
  | AttributeError m => "AttributeError('" ++ m ++ "')"
  | GraphRecursionError m => "GraphRecursionError('" ++ m ++ "')"
  | OverflowError m => "OverflowError('" ++ m ++ "')"
  | ProposalError m => "ProposalError('" ++ m ++ "')"
  end.

(** ** Python built-ins used by the notebooks *)

(** [sorted]: a stable sort.  [lt y x] says that [y] must come strictly
    before [x]; an element is inserted in front of the first element that
    need not precede it, so elements that compare equal keep the order in
    which they were met. *)
Section Sorted.
Context {A : Type} (lt : A -> A -> bool).

Fixpoint insert (x : A) (l : list A) : list A :=
  match l with
  | [] => [x]
  | y :: l' => if lt y x then y :: insert x l' else x :: y :: l'
  end.

Fixpoint sorted (l : list A) : list A :=
  match l with
  | [] => []
  | x :: l' => insert x (sorted l')
  end.
End Sorted.

Definition Qlt_bool (a b : Q) : bool := negb (Qle_bool b a).

(** [sorted(xs)] on floats and on ints (ascending, by [<]). *)
Definition sorted_floats (l : list Q) : list Q := sorted Qlt_bool l.
Definition sorted_ints (l : list Z) : list Z := sorted Z.ltb l.

(** [xs != ys] between a list of floats and a list of ints: the lengths
    differ or some position holds numerically different values. *)
Fixpoint floats_eq_ints (xs : list Q) (ns : list Z) : bool :=
  match xs, ns with
  | [], [] => true
  | x :: xs', n :: ns' => Qeq_bool x (inject_Z n) && floats_eq_ints xs' ns'
  | _, _ => false
  end.

(** [l[:n]], also for a negative [n]. *)
Definition slice_to {A : Type} (l : list A) (n : Z) : list A :=
  if (0 <=? n)%Z then firstn (Z.to_nat n) l
  else firstn (List.length l - Z.to_nat (- n)) l.

(** [str.split()]: maximal runs of non-whitespace characters (ASCII). *)
Definition is_space (c : ascii) : bool :=
  let n := nat_of_ascii c in
  ((9 <=? n) && (n <=? 13))%nat || ((28 <=? n) && (n <=? 32))%nat.

Fixpoint split_from (s : string) (word : string) : list string :=
  match s with
  | EmptyString => match word with EmptyString => [] | _ => [word] end
  | String c s' =>
      if is_space c then
        match word with
        | EmptyString => split_from s' EmptyString
        | _ => word :: split_from s' EmptyString
        end
      else split_from s' (word ++ String c EmptyString)
  end.

Definition split (s : string) : list string := split_from s EmptyString.

(** [int(s)] for an ASCII literal in base 10: an optional sign, then
    decimal digits, single underscores allowed between digits. *)
Definition digit_of (c : ascii) : option Z :=
  let n := nat_of_ascii c in
  if ((48 <=? n) && (n <=? 57))%nat then Some (Z.of_nat (n - 48)) else None.

Inductive int_prev : Type := AtStart | AfterDigit | AfterUnderscore.

Fixpoint int_digits (s : string) (acc : Z) (prev : int_prev) : option Z :=
  match s with
  | EmptyString => match prev with AfterDigit => Some acc | _ => None end
  | String c s' =>
      match digit_of c with
      | Some d => int_digits s' (10 * acc + d)%Z AfterDigit
      | None =>
          if Ascii.eqb c "_"%char then
            match prev with
            | AfterDigit => int_digits s' acc AfterUnderscore
            | _ => None
            end
          else None
      end
  end.

Definition int_of_string (s : string) : result Z :=
  let bad := Raise (ValueError
    ("invalid literal for int() with base 10: '" ++ s ++ "'")) in
  match s with
  | String "-"%char s' =>
      match int_digits s' 0%Z AtStart with Some n => Ok (- n)%Z | None => bad end
  | String "+"%char s' =>
      match int_digits s' 0%Z AtStart with Some n => Ok n | None => bad end
  | _ =>
      match int_digits s 0%Z AtStart with Some n => Ok n | None => bad end
  end.

Fixpoint map_result {A B : Type} (f : A -> result B) (l : list A)
  : result (list B) :=
  match l with
  | [] => Ok []
  | x :: l' => y <- f x ;; ys <- map_result f l' ;; Ok (y :: ys)
  end.

(** [list(map(int, problem.split()))] *)
Definition problem_numbers_of (problem : string) : result (list Z) :=
  map_result int_of_string (split problem).

(** [itertools.permutations(l)]: by position, in lexicographic order of
    the positions. *)
Fixpoint picks {A : Type} (l : list A) : list (A * list A) :=
  match l with
  | [] => []
  | x :: xs => (x, xs) :: map (fun p => (fst p, x :: snd p)) (picks xs)
  end.

Fixpoint permutations_upto {A : Type} (n : nat) (l : list A) : list (list A) :=
  match n with
  | O => [[]]
  | S n' =>
      flat_map (fun p => map (cons (fst p)) (permutations_upto n' (snd p)))
               (picks l)
  end.

Definition permutations {A : Type} (l : list A) : list (list A) :=
  permutations_upto (List.length l) l.

(** [float(n)] for an [int]: [n] itself when 53 bits hold it, otherwise
    the nearest integer with a 53-bit significand, a tie going to the
    even significand; an integer that rounds to 2^1024 or beyond raises.
    The value of the float is an integer again. *)
Definition float_of_int (n : Z) : result Z :=
  let m := Z.abs n in
  let excess := (Z.log2 m + 1 - 53)%Z in
  if (excess <=? 0)%Z then Ok n
  else
    let q := Z.shiftr m excess in
    let r := (m - Z.shiftl q excess)%Z in
    let half := Z.shiftl 1 (excess - 1) in
    let q' := if (half <? r)%Z || ((r =? half)%Z && Z.odd q)
              then (q + 1)%Z else q in
    let v := Z.shiftl q' excess in
    if (2 ^ 1024 <=? v)%Z
    then Raise (OverflowError "int too large to convert to float")
    else Ok (Z.sgn n * v)%Z.

(** [t[i]] on a tuple, for an index that is not negative. *)
Definition tuple_item {A : Type} (t : list A) (i : nat) : result A :=
  match nth_error t i with
  | Some x => Ok x
  | None => Raise (IndexError "tuple index out of range")
  end.

(** ** Task definition: tokens, equations, candidates *)

Inductive OperatorType : Type := Add | Sub | Mul | Div.

Inductive TokenType : Type :=
| Num (x : Q)
| Op (o : OperatorType).

Record Equation : Type := { tokens : list TokenType }.

(** [op_funcs[token](a, b)]; only [operator.truediv] can raise. *)
Definition op_funcs (o : OperatorType) (a b : Q) : result Q :=
  match o with
  | Add => Ok (a + b)%Q
  | Sub => Ok (a - b)%Q
  | Mul => Ok (a * b)%Q
  | Div => if Qeq_bool b 0 then Raise (ZeroDivisionError "float division by zero")
           else Ok (a / b)%Q
  end.

(** The loop of [Equation.compute].  The Python list [stack] is kept with
    its last element (the top) at the head: [stack.append(x)] is [x :: stack]
    and [stack.pop()] removes the head. *)
Fixpoint run_tokens (ts : list TokenType) (stack : list Q) : result (list Q) :=
  match ts with
  | [] => Ok stack
  | Num x :: ts' => run_tokens ts' (x :: stack)
  | Op o :: ts' =>
      match stack with
      | b :: a :: stack' =>
          v <- op_funcs o a b ;; run_tokens ts' (v :: stack')
      | _ => Raise (IndexError "pop from empty list")
      end
  end.

(** [stack[0]]: the element pushed first, i.e. the last of the model list. *)
Definition stack_bottom (stack : list Q) : result Q :=
  match rev stack with
  | v :: _ => Ok v
  | [] => Raise (IndexError "list index out of range")
  end.

Definition compute (e : Equation) : result Q :=
  stack <- run_tokens (tokens e) [] ;; stack_bottom stack.

Module Cand.
(** [class Candidate(NamedTuple)] *)
Record Candidate : Type := {
  candidate : Equation;
  score : option Q;
  feedback : option string
}.
End Cand.
Definition Candidate : Type := Cand.Candidate.

Module Scored.
(** [class ScoredCandidate(Candidate)]: score and feedback mandatory. *)
Record ScoredCandidate : Type := {
  candidate : Equation;
  score : Q;
  feedback : string
}.
End Scored.
Definition ScoredCandidate : Type := Scored.ScoredCandidate.

(** [Candidate(candidate=eq)] *)
Definition fresh (eq : Equation) : Candidate :=
  {| Cand.candidate := eq; Cand.score := None; Cand.feedback := None |}.

(** A [ScoredCandidate] is a [Candidate] (subclass). *)
Definition upcast (c : ScoredCandidate) : Candidate :=
  {| Cand.candidate := Scored.candidate c;
     Cand.score := Some (Scored.score c);
     Cand.feedback := Some (Scored.feedback c) |}.

(** The numeric literals of a token list:
    [[token for token in tokens if isinstance(token, float)]] *)
Fixpoint literals (ts : list TokenType) : list Q :=
  match ts with
  | [] => []
  | Num x :: ts' => x :: literals ts'
  | Op _ :: ts' => literals ts'
  end.

Fixpoint operators (ts : list TokenType) : list OperatorType :=
  match ts with
  | [] => []
  | Num _ :: ts' => operators ts'
  | Op o :: ts' => o :: operators ts'
  end.

(** [is_valid_equation(tokens, numbers)] *)
Definition is_valid_equation (ts : list TokenType) (numbers : list Z) : bool :=
  floats_eq_ints (sorted_floats (literals ts)) (sorted_ints numbers).

(** ** The evaluator and the scorer on binary64 floats

    The same functions over the floats of the machine: an operation
    rounds, overflows to an infinity, and gives NaN where IEEE 754 says
    so.  Only a division by zero raises, as in Python. *)

Module IEEE.
Import PrimFloat FloatOps SpecFloat.

Inductive TokenType : Type :=
| Num (x : float)
| Op (o : OperatorType).

Record Equation : Type := { tokens : list TokenType }.

(** [op_funcs[token](a, b)] *)
Definition op_funcs (o : OperatorType) (a b : float) : result float :=
  match o with
  | Add => Ok (a + b)%float
  | Sub => Ok (a - b)%float
  | Mul => Ok (a * b)%float
  | Div => if (b =? 0)%float
           then Raise (ZeroDivisionError "float division by zero")
           else Ok (a / b)%float
  end.

Fixpoint run_tokens (ts : list TokenType) (stack : list float)
  : result (list float) :=
  match ts with
  | [] => Ok stack
  | Num x :: ts' => run_tokens ts' (x :: stack)
  | Op o :: ts' =>
      match stack with
      | b :: a :: stack' =>
          v <- op_funcs o a b ;; run_tokens ts' (v :: stack')
      | _ => Raise (IndexError "pop from empty list")
      end
  end.

Definition stack_bottom (stack : list float) : result float :=
  match rev stack with
  | v :: _ => Ok v
  | [] => Raise (IndexError "list index out of range")
  end.

(** [Equation.compute] *)
Definition compute (e : Equation) : result float :=
  stack <- run_tokens (tokens e) [] ;; stack_bottom stack.

Record Candidate : Type := {
  candidate : Equation;
  score : option float;
  feedback : option string
}.

Record ScoredCandidate : Type := {
  scored_candidate : Equation;
  scored_score : float;
  scored_feedback : string
}.

Fixpoint literals (ts : list TokenType) : list float :=
  match ts with
  | [] => []
  | Num x :: ts' => x :: literals ts'
  | Op _ :: ts' => literals ts'
  end.

(** [x == n] between a float and an int: Python compares the two values
    exactly, without converting the int. *)
Definition float_eq_int (x : float) (n : Z) : bool :=
  match Prim2SF x with
  | S754_zero _ => (n =? 0)%Z
  | S754_finite s m e =>
      let v := if s then Zneg m else Zpos m in
      if (0 <=? e)%Z then (v * 2 ^ e =? n)%Z else (v =? n * 2 ^ (- e))%Z
  | _ => false
  end.

Fixpoint floats_eq_ints (xs : list float) (ns : list Z) : bool :=
  match xs, ns with
  | [], [] => true
  | x :: xs', n :: ns' => float_eq_int x n && floats_eq_ints xs' ns'
  | _, _ => false
  end.

(** [is_valid_equation(tokens, numbers)] *)
Definition is_valid_equation (ts : list TokenType) (numbers : list Z) : bool :=
  floats_eq_ints (sorted ltb (literals ts)) (sorted_ints numbers).

(** [1 / (1 + abs(24 - result))] *)
Definition fitness (r : float) : float := (1 / (1 + abs (24 - r)))%float.

(** [compute_score(problem, candidate)] *)
Definition compute_score (repr_float : float -> string) (problem : string)
           (c : Candidate) : result ScoredCandidate :=
  numbers <- problem_numbers_of problem ;;
  let used_numbers := literals (tokens (candidate c)) in
  if negb (floats_eq_ints (sorted ltb used_numbers) (sorted_ints numbers))
  then
    Ok {| scored_candidate := candidate c;
          scored_score := 0%float;
          scored_feedback :=
            "The equation must use all 4 numbers exactly once." |}
  else
    match compute (candidate c) with
    | Ok r =>
        Ok {| scored_candidate := candidate c;
              scored_score := fitness r;
              scored_feedback := "Result: " ++ repr_float r |}
    | Raise e =>
        Ok {| scored_candidate := candidate c;
              scored_score := 0%float;
              scored_feedback := "Invalid equation. Error: " ++ repr_exn e |}
    end.

(** The float nearest to an integer (a tie to the even significand,
    an infinity beyond the range): the float of that value when there is
    one. *)
Definition of_Z (z : Z) : float :=
  SF2Prim (binary_normalize prec emax z 0 false).

(** The float of a token of the rational model.  A token made by
    [float(n)] is an integer that a float holds, and is sent to that
    float. *)
Definition of_Q (x : Q) : float :=
  (of_Z (Qnum x) / of_Z (Zpos (Qden x)))%float.

(** [math.isfinite(val) and abs(val - 24) < 10] *)
Definition finite_near_24 (val : float) : bool :=
  is_finite val && (abs (val - 24) <? 10)%float.
End IEEE.

(** The tokens of an equation of the rational model, as floats. *)
Definition ieee_token (t : TokenType) : IEEE.TokenType :=
  match t with
  | Num x => IEEE.Num (IEEE.of_Q x)
  | Op o => IEEE.Op o
  end.

Definition ieee_equation (e : Equation) : IEEE.Equation :=
  {| IEEE.tokens := map ieee_token (tokens e) |}.

(** ** Rendering, scorer, state and the nodes shared by both notebooks *)

Section Nodes.
(** Python's rendering of a number inside a string. *)
Variable repr_float : Q -> string.

Definition repr_op (o : OperatorType) : string :=
  match o with
  | Add => "'+'"
  | Sub => "'-'"
  | Mul => "'*'"
  | Div => "'/'"
  end.

Definition repr_token (t : TokenType) : string :=
  match t with
  | Num x => repr_float x
  | Op o => repr_op o
  end.

(** [str] of a Python list whose items are already rendered. *)
Definition repr_list (items : list string) : string :=
  "[" ++ String.concat ", " items ++ "]".

Definition repr_tokens (ts : list TokenType) : string :=
  repr_list (map repr_token ts).

Definition repr_score (s : option Q) : string :=
  match s with
  | None => "None"
  | Some x => repr_float x
  end.

(** [repr] of an optional string; the escaping of quotes inside the
    text is not reproduced. *)
Definition repr_feedback (f : option string) : string :=
  match f with
  | None => "None"
  | Some t => "'" ++ t ++ "'"
  end.

(** [Candidate.__str__] *)
Definition Candidate_str (c : Candidate) : string :=
  let computed :=
    match compute (Cand.candidate c) with
    | Ok v => repr_float v
    | Raise e =>
        "Invalid equation: " ++ repr_tokens (tokens (Cand.candidate c))
        ++ "; Error: " ++ repr_exn e
    end in
  "Equation(" ++ repr_tokens (tokens (Cand.candidate c)) ++ ") = "
  ++ computed ++ " (Reward: " ++ repr_score (Cand.score c) ++ ")".

(** [repr] of a [Candidate] tuple, as it appears inside [str(list)]. *)
Definition Candidate_repr (c : Candidate) : string :=
  "Candidate(candidate=Equation(tokens="
  ++ repr_tokens (tokens (Cand.candidate c)) ++ "), score="
  ++ repr_score (Cand.score c) ++ ", feedback="
  ++ repr_feedback (Cand.feedback c) ++ ")".

Definition mismatch_feedback : string :=
  "The equation must use all 4 numbers exactly once.".

(** The fitness of a result: [1 / (1 + abs(24 - result))]. *)
Definition fitness (r : Q) : Q := (1 / (1 + Qabs (24 - r)))%Q.

(** [compute_score(problem, candidate)] *)
Definition compute_score (problem : string) (c : Candidate)
  : result ScoredCandidate :=
  numbers <- problem_numbers_of problem ;;
  let used_numbers := literals (tokens (Cand.candidate c)) in
  if negb (floats_eq_ints (sorted_floats used_numbers) (sorted_ints numbers))
  then
    Ok {| Scored.candidate := Cand.candidate c;
          Scored.score := 0;
          Scored.feedback := mismatch_feedback |}
  else
    match compute (Cand.candidate c) with
    | Ok r =>
        Ok {| Scored.candidate := Cand.candidate c;
              Scored.score := fitness r;
              Scored.feedback := "Result: " ++ repr_float r |}
    | Raise e =>
        Ok {| Scored.candidate := Cand.candidate c;
              Scored.score := 0;
              Scored.feedback := "Invalid equation. Error: " ++ repr_exn e |}
    end.

(** The value a node writes to a list channel: nothing, the literal
    ["clear"], or a list. *)
Inductive ListUpdate (A : Type) : Type :=
| NoUpdate
| Clear
| Items (l : list A).
Arguments NoUpdate {A}.
Arguments Clear {A}.
Arguments Items {A} l.

(** [update_candidates(existing, updates)] *)
Definition update_candidates {A : Type} (existing : option (list A))
           (updates : ListUpdate A) : list A :=
  let existing := match existing with None => [] | Some l => l end in
  match updates with
  | NoUpdate => existing
  | Clear => []
  | Items l => (existing ++ l)%list
  end.

(** [class ToTState(TypedDict)] *)
Record ToTState : Type := {
  problem : string;
  candidates : list Candidate;
  scored_candidates : list ScoredCandidate;
  depth : Z
}.

(** [class ExpansionState(ToTState)], as the dictionary a [Send] carries:
    the keys of the state plus the keys ["seed"] and ["somevalseed"],
    each of which may be absent. *)
Record ExpansionState : Type := {
  base : ToTState;
  seed : option Candidate;
  somevalseed : option Candidate
}.

(** The dictionary a node returns. *)
Record Update : Type := {
  upd_candidates : ListUpdate Candidate;
  upd_scored_candidates : ListUpdate ScoredCandidate;
  upd_depth : option Z
}.

(** [{"candidates": candidates}] *)
Definition only_candidates (l : list Candidate) : Update :=
  {| upd_candidates := Items l;
     upd_scored_candidates := NoUpdate;
     upd_depth := None |}.

(** The ["configurable"] dictionary of a run configuration: the keys
    the nodes read.  Its thread id, which only the checkpointer reads,
    is left out. *)
Record Configurable : Type := {
  get_max_depth : option Z;
  get_threshold : option Q;
  get_k : option Z;
  get_beam_size : option Z
}.

(** A [RunnableConfig]: the keys the notebooks read or set. *)
Record RunnableConfig : Type := {
  configurable : option Configurable;
  top_threshold : option Q;
  recursion_limit : option nat
}.

(** [class Configuration(TypedDict)], every key filled in. *)
Record Configuration : Type := {
  max_depth : Z;
  threshold : Q;
  k : Z;
  beam_size : Z
}.

Definition no_keys : Configurable :=
  {| get_max_depth := None; get_threshold := None;
     get_k := None; get_beam_size := None |}.

Definition get {A : Type} (o : option A) (default : A) : A :=
  match o with Some v => v | None => default end.

(** [_ensure_configurable(config)]; the notebooks differ in the default
    of [max_depth] only (10 and 50).  The ["threshold"] entry is looked
    up in [config] itself and written after the entries spread from
    [configurable]. *)
Definition _ensure_configurable (default_max_depth : Z)
           (config : RunnableConfig) : Configuration :=
  let configurable := get (configurable config) no_keys in
  {| max_depth := get (get_max_depth configurable) default_max_depth;
     threshold := get (top_threshold config) (9 # 10);
     k := get (get_k configurable) 5%Z;
     beam_size := get (get_beam_size configurable) 3%Z |}.

(** [score(state)] *)
Definition score (state : ToTState) : result Update :=
  scored <- map_result (compute_score (problem state)) (candidates state) ;;
  Ok {| upd_candidates := Clear;
        upd_scored_candidates := Items scored;
        upd_depth := None |}.

(** [sorted(scored_candidates, key=lambda c: c[1], reverse=True)]: the
    candidate with the larger key comes first, equal keys keep their
    order. *)
Definition sorted_by_score_desc (l : list ScoredCandidate)
  : list ScoredCandidate :=
  sorted (fun y x => Qlt_bool (Scored.score x) (Scored.score y)) l.

(** [prune(state, config)] *)
Definition prune (default_max_depth : Z) (state : ToTState)
           (config : RunnableConfig) : Update :=
  let beam_size := beam_size (_ensure_configurable default_max_depth config) in
  let organized := sorted_by_score_desc (scored_candidates state) in
  let pruned := slice_to organized beam_size in
  {| upd_candidates := Items (map upcast pruned);
     upd_scored_candidates := Clear;
     upd_depth := Some 1%Z |}.

(** The state after a node's update: each channel through its reducer,
    [update_candidates] for the two lists and [operator.add] for
    [depth]. *)
Definition apply_update (state : ToTState) (u : Update) : ToTState :=
  {| problem := problem state;
     candidates := update_candidates (Some (candidates state)) (upd_candidates u);
     scored_candidates :=
       update_candidates (Some (scored_candidates state))
                         (upd_scored_candidates u);
     depth := match upd_depth u with
              | Some d => (depth state + d)%Z
              | None => depth state
              end |}.
End Nodes.

Arguments NoUpdate {A}.
Arguments Clear {A}.
Arguments Items {A} l.

(** ** The proposal source *)

(** The variables of the prompt: what [solver.invoke] receives. *)
Record Request : Type := {
  req_problem : string;
  req_candidate : string;
  req_k : Z
}.

(** [class GuessEquations(BaseModel)] *)
Record GuessEquations : Type := {
  reasoning : string;
  equations : list Equation
}.

(** What one call of [solver.invoke] does: it raises (a schema violation,
    a timeout, a transport error), it returns [None] (structured output
    that could not be parsed), or it returns a submission. *)
Inductive Submission : Type :=
| Raises (e : exn)
| ReturnsNone
| Returns (g : GuessEquations).

(** Where the conditional edge after [prune] leads: ["__end__"], or one
    [Send("expand", payload)] per element of the list. *)
Inductive Route : Type :=
| END
| Sends (payloads : list ExpansionState).

(** [{**state, key: candidate}] for the two keys the notebooks use. *)
Definition with_seed (state : ToTState) (c : Candidate) : ExpansionState :=
  {| base := state; seed := Some c; somevalseed := None |}.

Definition with_somevalseed (state : ToTState) (c : Candidate) : ExpansionState :=
  {| base := state; seed := None; somevalseed := Some c |}.

Definition no_seed (state : ToTState) : ExpansionState :=
  {| base := state; seed := None; somevalseed := None |}.

Definition newline : string := String (ascii_of_nat 10) EmptyString.

(** [candidates[0].score >= threshold]; comparing [None] raises. *)
Definition score_at_least (c : Candidate) (threshold : Q) : result bool :=
  match Cand.score c with
  | Some s => Ok (Qle_bool threshold s)
  | None => Raise (TypeError
      "'>=' not supported between instances of 'NoneType' and 'float'")
  end.

(** [max(candidates, key=lambda c: c.score)]: the first candidate of
    maximal score; an empty list raises, and so does a missing score as
    soon as two elements are compared. *)
Fixpoint max_from (best : Candidate) (best_score : Q) (l : list Candidate)
  : result Candidate :=
  match l with
  | [] => Ok best
  | c :: l' =>
      match Cand.score c with
      | None => Raise (TypeError
          "'>' not supported between instances of 'NoneType' and 'float'")
      | Some s =>
          if Qlt_bool best_score s then max_from c s l'
          else max_from best best_score l'
      end
  end.

Definition max_by_score (l : list Candidate) : result Candidate :=
  match l with
  | [] => Raise (ValueError "max() iterable argument is empty")
  | [c] => Ok c
  | c :: l' =>
      match Cand.score c with
      | None => Raise (TypeError
          "'>' not supported between instances of 'float' and 'NoneType'")
      | Some s => max_from c s l'
      end
  end.

Module Res.
(** The dictionary [run_tot_on_problem] returns. *)
Record RunResult : Type := {
  solved : bool;
  depth : Z;
  best_score : Q;
  equation : string;
  feedback : option string
}.
End Res.

(** [str(e)]: the message of an exception. *)
Definition str_exn (e : exn) : string :=
  match e with
  | KeyError m => "'" ++ m ++ "'"
  | IndexError m | ZeroDivisionError m | ValueError m | TypeError m
  | AttributeError m | GraphRecursionError m | OverflowError m
  | ProposalError m => m
  end.

(** ** The graph engine *)

Section Engine.
Variable repr_float : Q -> string.
Variable default_max_depth : Z.

(** The two nodes in which the notebooks differ. *)
Variable expand :
  (Request -> Submission) -> ExpansionState -> RunnableConfig -> result Update.
Variable should_terminate : ToTState -> RunnableConfig -> result Route.

(** The [n]-th call of [solver.invoke] of a run. *)
Variable solver : nat -> Request -> Submission.

(** The node or nodes scheduled for the next step. *)
Inductive Pending : Type :=
| ToExpand (inputs : list ExpansionState)
| ToScore
| ToPrune.

(** Modelled from the spec: the fan-out of one EXPAND step of the graph
    engine, which is not among the sources.  Every scheduled [expand]
    runs on its own input; the updates are kept in the order of the
    inputs. *)
Fixpoint expand_all (n : nat) (inputs : list ExpansionState)
         (config : RunnableConfig) : result (list Update) :=
  match inputs with
  | [] => Ok []
  | i :: inputs' =>
      u <- expand (solver n) i config ;;
      us <- expand_all (S n) inputs' config ;;
      Ok (u :: us)
  end.

(** Modelled from the spec: one step of the graph engine (not among the
    sources) along the edges the notebooks declare, [expand -> score ->
    prune] and the conditional edge [should_terminate] after [prune].
    The result is the new state, the calls of the solver so far, and
    what is scheduled next ([None] once ["__end__"] is reached). *)
Definition superstep (config : RunnableConfig) (p : Pending)
           (state : ToTState) (n : nat)
  : result (ToTState * nat * option Pending) :=
  match p with
  | ToExpand inputs =>
      us <- expand_all n inputs config ;;
      Ok (fold_left apply_update us state, (n + List.length inputs)%nat,
          Some ToScore)
  | ToScore =>
      u <- score repr_float state ;;
      Ok (apply_update state u, n, Some ToPrune)
  | ToPrune =>
      let state' := apply_update state (prune default_max_depth state config) in
      r <- should_terminate state' config ;;
      match r with
      | END => Ok (state', n, None)
      | Sends payloads => Ok (state', n, Some (ToExpand payloads))
      end
  end.

Definition recursion_error : exn :=
  GraphRecursionError
    "Recursion limit reached without hitting a stop condition.".

(** Modelled from the spec: the engine's loop with its hard ceiling on
    the number of steps (the engine is not among the sources; the
    notebooks' recorded output shows its error and the configuration
    key [recursion_limit]).  At most [limit] steps are run; work that is
    still scheduled then is refused. *)
Fixpoint run_steps (limit : nat) (config : RunnableConfig)
         (p : Pending) (state : ToTState) (n : nat) : result ToTState :=
  match limit with
  | O => Raise recursion_error
  | S limit' =>
      r <- superstep config p state n ;;
      match r with
      | (state', n', None) => Ok state'
      | (state', n', Some p') => run_steps limit' config p' state' n'
      end
  end.

(** Modelled from the spec: the state of a fresh run, "EXPAND with empty
    frontier and depth 0". *)
Definition initial_state (problem : string) : ToTState :=
  {| problem := problem; candidates := []; scored_candidates := [];
     depth := 0%Z |}.

(** Modelled from the spec: [graph.stream({"problem": problem}, config)]
    run to its end, followed by [graph.get_state(config).values]; the
    ceiling is the configuration's [recursion_limit], 25 when absent. *)
Definition run_graph (problem : string) (config : RunnableConfig)
  : result ToTState :=
  run_steps (get (recursion_limit config) 25%nat) config
            (ToExpand [no_seed (initial_state problem)])
            (initial_state problem) 0.

(** [run_tot_on_problem(problem, graph_build, config)].  The graph is
    compiled with a [MemorySaver] checkpointer, which refuses a
    configuration without a "configurable" entry holding a thread id
    before any node runs.  That check of the library is not modelled:
    the configurations the notebooks write have the entry, and the
    [KeyError] branch below stands for a configuration the checkpointer
    would already have refused. *)
Definition run_tot_on_problem (problem : string) (config : RunnableConfig)
  : result Res.RunResult :=
  final_state <- run_graph problem config ;;
  let depth := depth final_state in
  let candidates := candidates final_state in
  best <- max_by_score candidates ;;
  configurable <- match configurable config with
                  | Some c => Ok c
                  | None => Raise (KeyError "configurable")
                  end ;;
  match Cand.score best with
  | None => Raise (TypeError
      "'>=' not supported between instances of 'NoneType' and 'float'")
  | Some best_score =>
      Ok {| Res.solved :=
              Qle_bool (get (get_threshold configurable) (9 # 10)) best_score;
            Res.depth := depth;
            Res.best_score := best_score;
            Res.equation :=
              repr_tokens repr_float (tokens (Cand.candidate best));
            Res.feedback := Cand.feedback best |}
  end.
End Engine.

(** [puzzles[:limit]] processed in order by [run_tot_on_many_problems]:
    a run that raises is recorded as an unsolved result whose depth is
    [error_depth].  [run i] is the run on the [i]-th puzzle. *)
Fixpoint collect_results (run : nat -> string -> result Res.RunResult)
         (error_depth : Z) (i : nat) (puzzles : list string)
  : list Res.RunResult :=
  match puzzles with
  | [] => []
  | puzzle :: puzzles' =>
      match run i puzzle with
      | Ok r => r
      | Raise e =>
          {| Res.solved := false;
             Res.depth := error_depth;
             Res.best_score := 0;
             Res.equation := "ERROR";
             Res.feedback := Some (str_exn e) |}
      end :: collect_results run error_depth (S i) puzzles'
  end.

(** ** The heuristic notebook *)

Module Heu.
Section Heu.
Variable repr_float : Q -> string.

Definition default_max_depth : Z := 10%Z.

Definition all_ops : list OperatorType := [Add; Sub; Mul; Div].

(** [itertools.product(["+", "-", "*", "/"], repeat=3)] *)
Definition op_combos : list (OperatorType * OperatorType * OperatorType) :=
  flat_map (fun a =>
    flat_map (fun b => map (fun c => (a, b, c)) all_ops) all_ops) all_ops.

(** The token list built for one permutation and one operator triple,
    its items evaluated from left to right: [nums[i]] raises on a
    permutation of no more than [i] numbers, [float(nums[i])] on a number
    beyond the range of a float. *)
Definition heuristic_tokens (nums : list Z)
           (ops : OperatorType * OperatorType * OperatorType)
  : result (list TokenType) :=
  let '(o0, o1, o2) := ops in
  a <- (n <- tuple_item nums 0 ;; float_of_int n) ;;
  b <- (n <- tuple_item nums 1 ;; float_of_int n) ;;
  c <- (n <- tuple_item nums 2 ;; float_of_int n) ;;
  d <- (n <- tuple_item nums 3 ;; float_of_int n) ;;
  Ok [Num (inject_Z a); Num (inject_Z b); Op o0;
      Num (inject_Z c); Op o1; Num (inject_Z d); Op o2].

(** The test inside the [try], on the floats of the equation: the value
    is finite and within 10 of 24; an equation whose evaluation raises
    is skipped. *)
Definition near_target (eq : Equation) : bool :=
  match IEEE.compute (ieee_equation eq) with
  | Ok val => IEEE.finite_near_24 val
  | Raise _ => false
  end.

(** [generate_heuristic_candidates(numbers)]: the two loops build one
    token list per permutation and operator triple, with no [try] around
    the construction, so the first one that raises ends the call; the
    equations that pass the test are kept in order, ten at most. *)
Definition generate_heuristic_candidates (numbers : list Z)
  : result (list Equation) :=
  built <- map_result
             (fun p => ts <- heuristic_tokens (fst p) (snd p) ;;
                       Ok {| tokens := ts |})
             (list_prod (permutations numbers) op_combos) ;;
  Ok (slice_to (filter near_target built) 10).

Definition hint_prefix : string :=
  newline ++ newline
  ++ " the following are promising solution canditates that might help you".

(** The first half of [expand]: the parsed numbers, the candidates held
    before the solver is called, and the request given to
    [solver.invoke]. *)
Definition expand_request (state : ExpansionState) (config : RunnableConfig)
  : result (list Z * list Candidate * Request) :=
  let configurable := _ensure_configurable default_max_depth config in
  problem_numbers <- problem_numbers_of (problem (base state)) ;;
  prepared <-
    match seed state with
    | Some s => Ok ([], hint_prefix ++ Candidate_str repr_float s)
    | None =>
        heuristic_equations <- generate_heuristic_candidates problem_numbers ;;
        let candidates := map fresh heuristic_equations in
        Ok (candidates,
            hint_prefix
            ++ repr_list (map (Candidate_repr repr_float) candidates))
    end ;;
  Ok (problem_numbers, fst prepared,
      {| req_problem := problem (base state);
         req_candidate := snd prepared;
         req_k := k configurable |}).

(** [expand(state, config)]: the [try] covers the call and the reading
    of [.equations]; on any exception the candidates held so far are
    returned. *)
Definition expand (invoke : Request -> Submission) (state : ExpansionState)
           (config : RunnableConfig) : result Update :=
  r <- expand_request state config ;;
  let '(problem_numbers, held, request) := r in
  let candidates :=
    match invoke request with
    | Returns equation_submission =>
        map fresh
            (filter (fun eq => is_valid_equation (tokens eq) problem_numbers)
                    (equations equation_submission))
    | ReturnsNone => held
    | Raises _ => held
    end in
  Ok (only_candidates candidates).

(** [should_terminate(state, config)] *)
Definition should_terminate (state : ToTState) (config : RunnableConfig)
  : result Route :=
  let configurable := _ensure_configurable default_max_depth config in
  match candidates state with
  | [] => Ok END
  | c0 :: _ =>
      solved <- score_at_least c0 (threshold configurable) ;;
      if solved || (max_depth configurable <=? depth state)%Z then Ok END
      else Ok (Sends (map (with_seed state) (candidates state)))
  end.

Definition run_graph := run_graph repr_float default_max_depth expand should_terminate.

Definition run_tot_on_problem :=
  run_tot_on_problem repr_float default_max_depth expand should_terminate.

(** The configuration written in [run_tot_on_many_problems]. *)
Definition batch_config : RunnableConfig :=
  {| configurable := Some {| get_max_depth := None;
                             get_threshold := Some (99 # 100);
                             get_k := Some 5%Z;
                             get_beam_size := Some 3%Z |};
     top_threshold := None;
     recursion_limit := None |}.

(** [run_tot_on_many_problems(puzzles, graph_build, limit)];
    [solvers i] is the proposal source during the run on puzzle [i]. *)
Definition run_tot_on_many_problems (solvers : nat -> nat -> Request -> Submission)
           (puzzles : list string) (limit : Z) : list Res.RunResult :=
  collect_results (fun i puzzle => run_tot_on_problem (solvers i) puzzle batch_config)
                  (-1)%Z 0 (slice_to puzzles limit).
End Heu.
End Heu.

(** ** The chain-of-thought notebook *)

Module CoT.
Section CoT.
Variable repr_float : Q -> string.

Definition default_max_depth : Z := 50%Z.

(** The request [expand] gives to [solver.invoke]. *)
Definition expand_request (state : ExpansionState) (config : RunnableConfig)
  : Request :=
  let configurable := _ensure_configurable default_max_depth config in
  let candidate_str :=
    match seed state with
    | None => ""
    | Some s => newline ++ newline ++ Candidate_str repr_float s
    end in
  {| req_problem := problem (base state);
     req_candidate := candidate_str;
     req_k := k configurable |}.

(** [expand(state, config)]: the [try] covers the call only; the
    submission's [.equations] is read after it. *)
Definition expand (invoke : Request -> Submission) (state : ExpansionState)
           (config : RunnableConfig) : result Update :=
  match invoke (expand_request state config) with
  | Raises _ =>
      Ok (only_candidates [])
  | ReturnsNone =>
      Raise (AttributeError "'NoneType' object has no attribute 'equations'")
  | Returns equation_submission =>
      Ok (only_candidates (map fresh (equations equation_submission)))
  end.

(** [should_terminate(state, config)] *)
Definition should_terminate (state : ToTState) (config : RunnableConfig)
  : result Route :=
  let configurable := _ensure_configurable default_max_depth config in
  match candidates state with
  | [] => Raise (IndexError "list index out of range")
  | c0 :: _ =>
      solved <- score_at_least c0 (threshold configurable) ;;
      if solved || (max_depth configurable <=? depth state)%Z then Ok END
      else Ok (Sends (map (with_somevalseed state) (candidates state)))
  end.

Definition run_graph := run_graph repr_float default_max_depth expand should_terminate.

Definition run_tot_on_problem :=
  run_tot_on_problem repr_float default_max_depth expand should_terminate.

(** The configuration written in [run_tot_on_many_problems]. *)
Definition batch_config : RunnableConfig :=
  {| configurable := Some {| get_max_depth := None;
                             get_threshold := Some (99 # 100);
                             get_k := Some 5%Z;
                             get_beam_size := Some 3%Z |};
     top_threshold := None;
     recursion_limit := Some 100%nat |}.

(** [run_tot_on_many_problems(puzzles, graph_build, limit)] *)
Definition run_tot_on_many_problems (solvers : nat -> nat -> Request -> Submission)
           (puzzles : list string) (limit : Z) : list Res.RunResult :=
  collect_results (fun i puzzle => run_tot_on_problem (solvers i) puzzle batch_config)
                  0%Z 0 (slice_to puzzles limit).
End CoT.
End CoT.

(** ** The evaluation of a batch of results *)

(** [sum(xs)], exact: so it is on the ints of the depths, and so is the
    sum inside [statistics.mean].  On the floats of the scores the
    built-in [sum] rounds after each addition; that rounding is not
    modelled, and nothing is stated about the average score that the
    second definition below computes with it. *)
Definition sum_floats (xs : list Q) : Q := fold_left Qplus xs 0.

(** [statistics.mean(xs)]; the error on no data is a [StatisticsError],
    a subclass of [ValueError]. *)
Definition mean (xs : list Q) : result Q :=
  match xs with
  | [] => Raise (ValueError "mean requires at least one data point")
  | _ => Ok (sum_floats xs / inject_Z (Z.of_nat (List.length xs)))%Q
  end.

(** [max(xs)] on numbers: the first of the largest ones. *)
Fixpoint max_float_from (best : Q) (xs : list Q) : Q :=
  match xs with
  | [] => best
  | x :: xs' => if Qlt_bool best x then max_float_from x xs'
                else max_float_from best xs'
  end.

Definition max_float (xs : list Q) : result Q :=
  match xs with
  | [] => Raise (ValueError "max() iterable argument is empty")
  | x :: xs' => Ok (max_float_from x xs')
  end.

(** The integer nearest to [x], a tie going to the even one. *)
Definition round_half_even (x : Q) : Z :=
  let f := Qfloor x in
  match Qcompare (x - inject_Z f) (1 # 2) with
  | Lt => f
  | Gt => (f + 1)%Z
  | Eq => if Z.even f then f else (f + 1)%Z
  end.

(** [round(x, ndigits)] *)
Definition round (x : Q) (ndigits : nat) : Q :=
  (inject_Z (round_half_even (x * inject_Z (10 ^ Z.of_nat ndigits)))
   / inject_Z (10 ^ Z.of_nat ndigits))%Q.

(** [a / b] between two integers. *)
Definition true_divide (a b : Z) : result Q :=
  if (b =? 0)%Z then Raise (ZeroDivisionError "division by zero")
  else Ok (inject_Z a / inject_Z b)%Q.

(** The dictionary both definitions of [evaluate_tot_llm_performance]
    return; the list of equations is stored under the key
    "solved_equations" by the first definition and under
    "example_solutions" by the second. *)
Record Metrics : Type := {
  total_problems : Z;
  solved_problems : Z;
  accuracy : Q;
  average_depth : Q;
  average_best_score : Q;
  highest_score : Q;
  solved_equations : list string
}.

Module Evaluation.
(** [evaluate_tot_llm_performance(results)], the definition of the cell
    "Evaluation". *)
Definition evaluate_tot_llm_performance (results : list Res.RunResult)
  : result Metrics :=
  let num_trials := Z.of_nat (List.length results) in
  let num_solved := Z.of_nat (List.length (filter Res.solved results)) in
  avg_depth <- mean (map (fun r => inject_Z (Res.depth r)) results) ;;
  avg_score <- mean (map Res.best_score results) ;;
  max_score <- max_float (map Res.best_score results) ;;
  let solved_equations := map Res.equation (filter Res.solved results) in
  accuracy <- true_divide num_solved num_trials ;;
  Ok {| total_problems := num_trials;
        solved_problems := num_solved;
        accuracy := accuracy;
        average_depth := round avg_depth 2;
        average_best_score := round avg_score 3;
        highest_score := round max_score 3;
        solved_equations := solved_equations |}.
End Evaluation.

Module Performance.
(** [evaluate_tot_llm_performance(results)], the definition of the cell
    "Evaluate Performance", which replaces the first one. *)
Definition evaluate_tot_llm_performance (results : list Res.RunResult)
  : result Metrics :=
  let num_trials := Z.of_nat (List.length results) in
  let num_solved := Z.of_nat (List.length (filter Res.solved results)) in
  let avg_depth :=
    (sum_floats (map (fun r => inject_Z (Res.depth r))
                     (filter (fun r => (0 <=? Res.depth r)%Z) results))
     / inject_Z (Z.max 1 num_trials))%Q in
  let avg_score :=
    (sum_floats (map Res.best_score results)
     / inject_Z (Z.max 1 num_trials))%Q in
  max_score <- max_float (map Res.best_score results) ;;
  accuracy <- true_divide num_solved num_trials ;;
  Ok {| total_problems := num_trials;
        solved_problems := num_solved;
        accuracy := round accuracy 3;
        average_depth := round avg_depth 2;
        average_best_score := round avg_score 3;
        highest_score := round max_score 3;
        solved_equations :=
          map Res.equation (filter Res.solved results) |}.
End Performance.

(** ** Expressions as trees *)

(** An arithmetic expression, the reading of a token list that the
    docstring of [Equation] gives: [3, 4, '+', -1, '*'] is (3 + 4) * -1. *)
Inductive Expr : Type :=
| Lit (x : Q)
| Bin (o : OperatorType) (left right : Expr).

(** The reverse-polish form of an expression. *)
Fixpoint to_rpn (e : Expr) : list TokenType :=
  match e with
  | Lit x => [Num x]
  | Bin o l r => (to_rpn l ++ to_rpn r ++ [Op o])%list
  end.

(** The value of an expression: the left operand, then the right one,
    then the operation. *)
Fixpoint eval (e : Expr) : result Q :=
  match e with
  | Lit x => Ok x
  | Bin o l r => a <- eval l ;; b <- eval r ;; op_funcs o a b
  end.

(** ** Vocabulary of the statements *)

(** An operator is met while fewer than two values are on the stack. *)
Definition underflows (ts : list TokenType) : Prop :=
  exists pre o post stack,
    ts = (pre ++ Op o :: post)%list /\
    run_tokens pre [] = Ok stack /\ (List.length stack < 2)%nat.

(** A division is met while the value on top of the stack is zero. *)
Definition divides_by_zero (ts : list TokenType) : Prop :=
  exists pre post b a stack,
    ts = (pre ++ Op Div :: post)%list /\
    run_tokens pre [] = Ok (b :: a :: stack) /\ (b == 0)%Q.



(** A float holds the integer [n]: [float(n)] is [n]. *)
Definition exact_float (n : Z) : Prop := float_of_int n = Ok n.

(** [float(n)] does not raise. *)
Definition in_float_range (n : Z) : bool :=
  match float_of_int n with
  | Ok _ => true
  | Raise _ => false
  end.

(** A candidate whose literals are the problem numbers. *)
Definition valid_candidate (numbers : list Z) (c : Candidate) : Prop :=
  is_valid_equation (tokens (Cand.candidate c)) numbers = true.

Definition valid_scored (numbers : list Z) (c : ScoredCandidate) : Prop :=
  is_valid_equation (tokens (Scored.candidate c)) numbers = true.

(** [text] occurs inside [s]. *)
Definition occurs_in (text s : string) : Prop :=
  exists before after, s = before ++ text ++ after.

Section Ceiling.
Variable repr_float : Q -> string.
Variable default_max_depth : Z.
Variable expand :
  (Request -> Submission) -> ExpansionState -> RunnableConfig -> result Update.
Variable should_terminate : ToTState -> RunnableConfig -> result Route.
Variable solver : nat -> Request -> Submission.
Variable config : RunnableConfig.

(** [StillPending steps p state n]: from the state [state] with [p]
    scheduled, [steps] steps can be run, none of which raises and none of
    which reaches ["__end__"]. *)
Inductive StillPending : nat -> Pending -> ToTState -> nat -> Prop :=
| pending_now (p : Pending) (state : ToTState) (n : nat) :
    StillPending 0 p state n
| pending_step (steps : nat) (p p' : Pending) (state state' : ToTState)
               (n n' : nat) :
    superstep repr_float default_max_depth expand should_terminate solver
              config p state n = Ok (state', n', Some p') ->
    StillPending steps p' state' n' ->
    StillPending (S steps) p state n.

(** The same as a test. *)
Fixpoint still_pending (steps : nat) (p : Pending) (state : ToTState) (n : nat)
  : bool :=
  match steps with
  | O => true
  | S steps' =>
      match superstep repr_float default_max_depth expand should_terminate
                      solver config p state n with
      | Ok (state', n', Some p') => still_pending steps' p' state' n'
      | _ => false
      end
  end.
End Ceiling.

(** Every candidate held in the state has the problem numbers as its
    literals. *)
Definition valid_state (numbers : list Z) (state : ToTState) : Prop :=
  Forall (valid_candidate numbers) (candidates state) /\
  Forall (valid_scored numbers) (scored_candidates state).

(** Every scheduled expansion is about the problem [text]. *)
Definition same_problem (text : string) (p : Pending) : Prop :=
  match p with
  | ToExpand inputs => Forall (fun i => problem (base i) = text) inputs
  | _ => True
  end.

(** The errors of the engine itself, as opposed to those of the nodes. *)
Definition is_engine_error (x : exn) : bool :=
  match x with
  | GraphRecursionError _ => true
  | _ => false
  end.

(** * Properties *)

(** ** The expression evaluator *)

(** The example of the docstring: [3, 4, '+', -1, '*'] is (3 + 4) * -1. *)
Example compute_docstring :
  compute {| tokens := [Num 3; Num 4; Op Add; Num (-1); Op Mul] |} = Ok (-7)%Q.
Proof. reflexivity. Qed.

(** The operand pushed first is the left operand. *)
Example compute_operand_order :
  compute {| tokens := [Num 3; Num 4; Op Sub] |} = Ok (-1)%Q.
Proof. reflexivity. Qed.

Example compute_division_by_zero :
  compute {| tokens := [Num 1; Num 0; Op Div] |}
  = Raise (ZeroDivisionError "float division by zero").
Proof. reflexivity. Qed.

Example compute_underflow :
  compute {| tokens := [Num 1; Op Add] |}
  = Raise (IndexError "pop from empty list").
Proof. reflexivity. Qed.

Example compute_no_tokens :
  compute {| tokens := [] |} = Raise (IndexError "list index out of range").
Proof. reflexivity. Qed.

Lemma bind_ok_inv {A B : Type} (c : result A) (k : A -> result B) (b : B) :
  bind c k = Ok b -> exists a, c = Ok a /\ k a = Ok b.
Proof.
  destruct c as [a | e]; simpl; intros H; [eauto | discriminate].
Qed.

Lemma bind_raise_inv {A B : Type} (c : result A) (k : A -> result B) (x : exn) :
  bind c k = Raise x -> c = Raise x \/ exists a, c = Ok a /\ k a = Raise x.
Proof.
  destruct c as [a | e]; simpl; intros H; [right; eauto | left; congruence].
Qed.

(** The loop run on a concatenation is the loop run on the first part,
    continued on the second from the stack it left. *)
Lemma run_tokens_app (pre post : list TokenType) (stack : list Q) :
  run_tokens (pre ++ post)%list stack
  = (s <- run_tokens pre stack ;; run_tokens post s).
Proof.
  revert stack; induction pre as [| t pre IH]; intros stack; simpl.
  - reflexivity.
  - destruct t as [x | o].
    + apply IH.
    + destruct stack as [| b [| a stack']]; simpl; try reflexivity.
      destruct (op_funcs o a b) as [v | e]; simpl; [apply IH | reflexivity].
Qed.

(** Every literal adds one value to the stack, every operator removes
    one. *)
Lemma run_tokens_height (ts : list TokenType) (stack final : list Q) :
  run_tokens ts stack = Ok final ->
  (List.length final + List.length (operators ts)
   = List.length stack + List.length (literals ts))%nat.
Proof.
  revert stack; induction ts as [| t ts IH]; intros stack H; simpl in *.
  - injection H as <-. lia.
  - destruct t as [x | o]; simpl.
    + apply IH in H. simpl in H. lia.
    + destruct stack as [| b [| a stack']]; try discriminate.
      apply bind_ok_inv in H as (v & _ & H).
      apply IH in H. simpl in *. lia.
Qed.

Lemma op_funcs_raise (o : OperatorType) (a b : Q) (x : exn) :
  op_funcs o a b = Raise x ->
  o = Div /\ (b == 0)%Q /\ x = ZeroDivisionError "float division by zero".
Proof.
  destruct o; simpl; try discriminate.
  destruct (Qeq_bool b 0) eqn:E; [| discriminate].
  intros [= <-]. apply Qeq_bool_iff in E. auto.
Qed.

(** A failing loop has a first failing operator. *)
Lemma run_tokens_raise (ts : list TokenType) (stack : list Q) (x : exn) :
  run_tokens ts stack = Raise x ->
  exists pre o post s,
    ts = (pre ++ Op o :: post)%list /\ run_tokens pre stack = Ok s /\
    (((List.length s < 2)%nat /\ x = IndexError "pop from empty list") \/
     (o = Div /\ x = ZeroDivisionError "float division by zero" /\
      exists b a rest, s = b :: a :: rest /\ (b == 0)%Q)).
Proof.
  revert stack; induction ts as [| t ts IH]; intros stack H; simpl in H.
  - discriminate.
  - destruct t as [v | o].
    + apply IH in H as (pre & o & post & s & -> & Hrun & Hwhy).
      exists (Num v :: pre), o, post, s. simpl. auto.
    + destruct stack as [| b [| a stack']].
      * injection H as <-. exists [], o, ts, []. simpl.
        repeat split; auto.
      * injection H as <-. exists [], o, ts, [b]. simpl.
        repeat split; auto.
      * apply bind_raise_inv in H as [H | (v & Hv & H)].
        -- apply op_funcs_raise in H as (-> & Hb & ->).
           exists [], Div, ts, (b :: a :: stack'). simpl.
           repeat split; auto. right. repeat split; eauto.
        -- apply IH in H as (pre & o' & post & s & -> & Hrun & Hwhy).
           exists (Op o :: pre), o', post, s. simpl. rewrite Hv. simpl. auto.
Qed.

Lemma stack_bottom_ok (stack : list Q) :
  stack <> [] -> exists v, stack_bottom stack = Ok v /\ v = last stack 0%Q.
Proof.
  intros H. unfold stack_bottom.
  destruct (exists_last H) as (front & v & ->).
  rewrite rev_app_distr. simpl. exists v. split; [reflexivity |].
  now rewrite last_last.
Qed.

Lemma compute_raises_iff (e : Equation) :
  (exists x, compute e = Raise x) <->
  underflows (tokens e) \/ divides_by_zero (tokens e)
  \/ run_tokens (tokens e) [] = Ok [].
Proof.
  unfold compute. split.
  - intros (x & H). apply bind_raise_inv in H as [H | (s & Hs & H)].
    + apply run_tokens_raise in H
        as (pre & o & post & s & Hts & Hrun & [(Hlen & _) | (-> & _ & Hz)]).
      * left. exists pre, o, post, s. auto.
      * right; left. destruct Hz as (b & a & rest & -> & Hb).
        exists pre, post, b, a, rest. auto.
    + right; right. destruct s as [| v s]; [exact Hs |].
      destruct (stack_bottom_ok (v :: s)) as (w & Hw & _); [discriminate |].
      rewrite Hw in H. discriminate.
  - intros [(pre & o & post & s & Hts & Hrun & Hlen)
           | [(pre & post & b & a & s & Hts & Hrun & Hb) | Hempty]].
    + rewrite Hts, run_tokens_app, Hrun. simpl.
      destruct s as [| b [| a s]]; simpl in *; [eauto | eauto | lia].
    + rewrite Hts, run_tokens_app, Hrun. simpl.
      apply Qeq_bool_iff in Hb. rewrite Hb. simpl. eauto.
    + rewrite Hempty. simpl. unfold stack_bottom. simpl. eauto.
Qed.

(** Which exception [compute] raises, and in which situation. *)
Lemma compute_raises_which (e : Equation) (x : exn) :
  compute e = Raise x <->
  (underflows (tokens e) /\ x = IndexError "pop from empty list") \/
  (divides_by_zero (tokens e) /\
   x = ZeroDivisionError "float division by zero") \/
  (run_tokens (tokens e) [] = Ok [] /\
   x = IndexError "list index out of range").
Proof.
  unfold compute. split.
  - intros H. apply bind_raise_inv in H as [H | (s & Hs & H)].
    + apply run_tokens_raise in H
        as (pre & o & post & s & Hts & Hrun & [(Hlen & ->) | (-> & -> & Hz)]).
      * left. split; [| reflexivity]. exists pre, o, post, s. auto.
      * right; left. split; [| reflexivity].
        destruct Hz as (b & a & rest & -> & Hb).
        exists pre, post, b, a, rest. auto.
    + right; right. destruct s as [| v s].
      * split; [exact Hs |]. unfold stack_bottom in H. simpl in H.
        now injection H as <-.
      * destruct (stack_bottom_ok (v :: s)) as (w & Hw & _); [discriminate |].
        rewrite Hw in H. discriminate.
  - intros [((pre & o & post & s & Hts & Hrun & Hlen) & ->)
           | [((pre & post & b & a & s & Hts & Hrun & Hb) & ->) | (Hempty & ->)]].
    + rewrite Hts, run_tokens_app, Hrun. simpl.
      destruct s as [| b [| a s]]; simpl in *; [reflexivity | reflexivity | lia].
    + rewrite Hts, run_tokens_app, Hrun. simpl.
      apply Qeq_bool_iff in Hb. rewrite Hb. reflexivity.
    + rewrite Hempty. reflexivity.
Qed.

(** C3, as the claim states it, fails: the token list [1.0, 2.0] leaves
    two values on the stack, and [compute] returns the first of them
    instead of failing. *)
Lemma compute_surplus_values_returns :
  ~ (forall (e : Equation) (stack : list Q),
        run_tokens (tokens e) [] = Ok stack -> List.length stack <> 1%nat ->
        exists x, compute e = Raise x).
Proof.
  intros H.
  destruct (H {| tokens := [Num 1; Num 2] |} [2; 1]%Q) as (x & Hx).
  - reflexivity.
  - simpl. lia.
  - discriminate Hx.
Qed.

(** C3 (amended): for a token list with N literals and N-1 operators on
    which no operator underflows and no division by zero occurs,
    [compute] returns the single value left on the stack.  In general
    [compute] raises exactly when an operator is met with fewer than two
    values on the stack, and then it raises the IndexError of [pop]; or a
    division by zero occurs, and then it raises a ZeroDivisionError; or
    the final stack is empty, and then it raises the IndexError of
    [stack[0]].  Each of the three exceptions is raised in its situation
    only.  A final stack of more than one value is no failure: the value
    pushed first, [stack[0]], is returned. *)
Theorem compute_returns_or_raises (e : Equation) (stack : list Q)
  (Hrun : run_tokens (tokens e) [] = Ok stack) :
  (List.length (literals (tokens e))
   = S (List.length (operators (tokens e))) ->
   exists v, stack = [v] /\ compute e = Ok v) /\
  (stack <> [] -> compute e = Ok (last stack 0%Q)) /\
  (stack = [] -> compute e = Raise (IndexError "list index out of range")) /\
  (forall e' : Equation,
      (exists x, compute e' = Raise x) <->
      underflows (tokens e') \/ divides_by_zero (tokens e')
      \/ run_tokens (tokens e') [] = Ok []) /\
  (forall (e' : Equation) (x : exn),
      compute e' = Raise x <->
      (underflows (tokens e') /\ x = IndexError "pop from empty list") \/
      (divides_by_zero (tokens e') /\
       x = ZeroDivisionError "float division by zero") \/
      (run_tokens (tokens e') [] = Ok [] /\
       x = IndexError "list index out of range")).
Proof.
  split; [| split; [| split; [| split;
    [apply compute_raises_iff | apply compute_raises_which]]]].
  - intros Hcount. apply run_tokens_height in Hrun as Hh. simpl in Hh.
    destruct stack as [| v [| w stack]]; simpl in Hh; try lia.
    exists v. split; [reflexivity |].
    unfold compute. rewrite Hrun. reflexivity.
  - intros Hne. unfold compute. rewrite Hrun. simpl.
    destruct (stack_bottom_ok stack Hne) as (v & -> & ->). reflexivity.
  - intros ->. unfold compute. rewrite Hrun. reflexivity.
Qed.

(** The example of the specification: [6, 4, '*', 6, '+', 6, '-'] is 24. *)
Lemma compute_returns_or_raises_witness :
  let e := {| tokens := [Num 6; Num 4; Op Mul; Num 6; Op Add; Num 6; Op Sub] |} in
  run_tokens (tokens e) [] = Ok [24%Q] /\
  exists v, [24%Q] = [v] /\ compute e = Ok v.
Proof.
  split; [reflexivity |].
  apply (compute_returns_or_raises
           {| tokens := [Num 6; Num 4; Op Mul; Num 6; Op Add; Num 6; Op Sub] |}
           [24%Q]); reflexivity.
Defined.

(** ** Sorting *)

Section SortedFacts.
Context {A : Type} (lt : A -> A -> bool).

Lemma insert_perm (x : A) (l : list A) : Permutation (insert lt x l) (x :: l).
Proof.
  induction l as [| y l IH]; simpl.
  - apply Permutation_refl.
  - destruct (lt y x).
    + eapply perm_trans; [apply perm_skip, IH | apply perm_swap].
    + apply Permutation_refl.
Qed.

Lemma sorted_perm (l : list A) : Permutation (sorted lt l) l.
Proof.
  induction l as [| x l IH]; simpl.
  - apply perm_nil.
  - eapply perm_trans; [apply insert_perm | apply perm_skip, IH].
Qed.

(** [R a b]: [a] may stand before [b]. *)
Variable R : A -> A -> Prop.
Hypothesis R_trans : forall a b c, R a b -> R b c -> R a c.
Hypothesis lt_R : forall y x, lt y x = true -> R y x.
Hypothesis not_lt_R : forall y x, lt y x = false -> R x y.



(** Stability: elements of one class [p], none of which must precede
    another, keep the order in which they were met. *)
Variable p : A -> bool.
Hypothesis same_class : forall y x, p y = true -> p x = true -> lt y x = false.


End SortedFacts.

Lemma insert_ints_comm (x y : Z) (l : list Z) :
  insert Z.ltb x (insert Z.ltb y l) = insert Z.ltb y (insert Z.ltb x l).
Proof.
  induction l as [| z l IH]; simpl.
  - destruct (Z.ltb_spec y x), (Z.ltb_spec x y); try reflexivity; try lia.
    now replace y with x by lia.
  - destruct (Z.ltb_spec z y), (Z.ltb_spec z x); simpl;
      repeat match goal with
             | |- context [Z.ltb ?a ?b] => destruct (Z.ltb_spec a b); try lia
             end; try reflexivity.
    + now rewrite IH.
    + now replace y with x by lia.
Qed.

(** Sorting forgets the order in which the integers were given. *)
Lemma sorted_ints_perm (l1 l2 : list Z) :
  Permutation l1 l2 -> sorted_ints l1 = sorted_ints l2.
Proof.
  unfold sorted_ints.
  induction 1 as [| x l1 l2 _ IH | x y l | l1 l2 l3 _ IH1 _ IH2]; simpl.
  - reflexivity.
  - now rewrite IH.
  - apply insert_ints_comm.
  - now rewrite IH1.
Qed.

Lemma is_valid_equation_perm (ts : list TokenType) (n1 n2 : list Z) :
  Permutation n1 n2 -> is_valid_equation ts n1 = is_valid_equation ts n2.
Proof.
  intros H. unfold is_valid_equation. now rewrite (sorted_ints_perm n1 n2 H).
Qed.

(** ** The scorer *)



Example problem_numbers_of_example :
  problem_numbers_of "1 1 11 11" = Ok [1; 1; 11; 11]%Z.
Proof. reflexivity. Qed.

Example problem_numbers_of_bad :
  problem_numbers_of "1 x 3" =
  Raise (ValueError "invalid literal for int() with base 10: 'x'").
Proof. reflexivity. Qed.

(** [float_of_int] gives the float that the machine gives: at the end
    of the exact range, at ties, which go to the even significand, and at
    the end of the range of a float, where the conversion of the machine
    gives an infinity and Python raises. *)
Example float_of_int_agrees_with_machine :
  forallb (fun n => match float_of_int n with
                    | Ok v => IEEE.float_eq_int (IEEE.of_Z n) v
                    | Raise _ => PrimFloat.is_infinity (IEEE.of_Z n)
                    end)
          [0; 1; -1; 24; 2 ^ 53; 2 ^ 53 + 1; 2 ^ 53 + 2; 2 ^ 53 + 3;
           - (2 ^ 53 + 1); 2 ^ 54 + 2; 2 ^ 54 + 6; 10 ^ 22; 10 ^ 23; 2 ^ 512;
           2 ^ 1024 - 2 ^ 971; 2 ^ 1024 - 2 ^ 970 - 1; 2 ^ 1024 - 2 ^ 970;
           - 10 ^ 400]%Z
  = true /\
  float_of_int (2 ^ 53 + 1) = Ok (2 ^ 53)%Z /\
  float_of_int (2 ^ 53 + 3) = Ok (2 ^ 53 + 4)%Z /\
  float_of_int (2 ^ 1024 - 2 ^ 970)
  = Raise (OverflowError "int too large to convert to float").
Proof. repeat split; vm_compute; reflexivity. Qed.

Section ScorerOnFloats.
Import PrimFloat.

(** On floats the scorer gives the same answers on the problems of the
    game: 6 * 4 + 6 - 6 scores 1.0 on "4 6 6 6". *)
Example ieee_compute_score_solution :
  IEEE.compute_score (fun _ => "24.0") "4 6 6 6"
    {| IEEE.candidate :=
         {| IEEE.tokens := [IEEE.Num 6; IEEE.Num 4; IEEE.Op Mul; IEEE.Num 6;
                            IEEE.Op Add; IEEE.Num 6; IEEE.Op Sub] |};
       IEEE.score := None; IEEE.feedback := None |}
  = Ok {| IEEE.scored_candidate :=
            {| IEEE.tokens := [IEEE.Num 6; IEEE.Num 4; IEEE.Op Mul; IEEE.Num 6;
                               IEEE.Op Add; IEEE.Num 6; IEEE.Op Sub] |};
          IEEE.scored_score := 1;
          IEEE.scored_feedback := "Result: 24.0" |}.
Proof. vm_compute. reflexivity. Qed.


(** With four such numbers the result can be NaN, inf - inf, and so is
    the score. *)
Example compute_score_overflow_scores_nan :
  let big := IEEE.Num (IEEE.of_Z (2 ^ 512)) in
  let eq := {| IEEE.tokens := [big; big; IEEE.Op Mul; big; big; IEEE.Op Mul;
                               IEEE.Op Sub] |} in
  IEEE.is_valid_equation (IEEE.tokens eq) [2 ^ 512; 2 ^ 512; 2 ^ 512; 2 ^ 512]%Z
  = true /\
  IEEE.compute eq = Ok nan /\ IEEE.fitness nan = nan.
Proof. repeat split; vm_compute; reflexivity. Qed.


End ScorerOnFloats.

(** A three-literal expression on the problem "1 1 1 1" is a mismatch,
    evaluable or not. *)
Example compute_score_three_ones :
  compute_score (fun _ => "") "1 1 1 1"
                (fresh {| tokens := [Num 1; Num 1; Op Add; Num 1; Op Add] |})
  = Ok {| Scored.candidate :=
            {| tokens := [Num 1; Num 1; Op Add; Num 1; Op Add] |};
          Scored.score := 0;
          Scored.feedback := mismatch_feedback |}.
Proof. reflexivity. Qed.

(** C9: two problem strings that list the same numbers in different
    orders give the same scored candidate. *)
Theorem compute_score_order_invariant (repr_float : Q -> string)
  (problem1 problem2 : string) (numbers1 numbers2 : list Z) (c : Candidate)
  (Hparse1 : problem_numbers_of problem1 = Ok numbers1)
  (Hparse2 : problem_numbers_of problem2 = Ok numbers2)
  (Hperm : Permutation numbers1 numbers2) :
  compute_score repr_float problem1 c = compute_score repr_float problem2 c.
Proof.
  unfold compute_score. rewrite Hparse1, Hparse2. simpl.
  now rewrite (sorted_ints_perm numbers1 numbers2 Hperm).
Qed.

Lemma compute_score_order_invariant_witness :
  let c := fresh {| tokens := [Num 1; Num 2; Op Add; Num 3; Op Add;
                               Num 4; Op Mul] |} in
  compute_score (fun _ => "24.0") "1 2 3 4" c
  = compute_score (fun _ => "24.0") "4 3 2 1" c.
Proof.
  intro c.
  apply (compute_score_order_invariant (fun _ => "24.0") "1 2 3 4" "4 3 2 1"
           [1; 2; 3; 4]%Z [4; 3; 2; 1]%Z c eq_refl eq_refl).
  change [4; 3; 2; 1]%Z with (rev [1; 2; 3; 4]%Z).
  apply Permutation_rev.
Defined.

(** ** Pruning *)



Lemma sorted_by_score_desc_perm (l : list ScoredCandidate) :
  Permutation (sorted_by_score_desc l) l.
Proof. apply sorted_perm. Qed.



Lemma slice_to_nonneg {A : Type} (l : list A) (n : Z) :
  (0 <= n)%Z -> slice_to l n = firstn (Z.to_nat n) l.
Proof.
  intros H. unfold slice_to. apply Z.leb_le in H. now rewrite H.
Qed.



(** The example of the specification, evaluated: with scores
    [0.9, 0.9, 0.3, 0.1] and beam size 2 the two 0.9 entries survive in
    their original order. *)
Example prune_example :
  let sc (x : Q) (s : Q) : ScoredCandidate :=
    {| Scored.candidate := {| tokens := [Num x] |};
       Scored.score := s; Scored.feedback := "" |} in
  upd_candidates
    (prune 10
           {| problem := "1 2 3 4"; candidates := [];
              scored_candidates :=
                [sc 4 (1 # 10); sc 1 (9 # 10); sc 3 (3 # 10); sc 2 (9 # 10)];
              depth := 0%Z |}
           {| configurable :=
                Some {| get_max_depth := None; get_threshold := None;
                        get_k := None; get_beam_size := Some 2%Z |};
              top_threshold := None; recursion_limit := None |})
  = Items [upcast (sc 1 (9 # 10)); upcast (sc 2 (9 # 10))].
Proof. reflexivity. Qed.

(** ** The proposal adapter *)

(** C6, as the claim states it, fails: in the heuristic notebook, on the
    first round (no seed) of the problem "1 1 4 6", a proposal source
    that raises on every call leaves [expand] with the heuristic
    candidates it computed before the call, not with an empty list. *)
Lemma heu_expand_failure_keeps_heuristics :
  ~ (forall (repr_float : Q -> string) (invoke : Request -> Submission)
            (state : ExpansionState) (config : RunnableConfig),
        (forall r : Request, exists e : exn, invoke r = Raises e) ->
        Heu.expand repr_float invoke state config = Ok (only_candidates [])).
Proof.
  intros H.
  specialize (H (fun _ => "") (fun _ => Raises (ProposalError "timeout"))
                (no_seed (initial_state "1 1 4 6")) Heu.batch_config).
  assert (Hraises : forall r : Request, exists e : exn,
             (fun _ : Request => Raises (ProposalError "timeout")) r = Raises e)
    by (intros r; eauto).
  specialize (H Hraises). vm_compute in H. discriminate H.
Qed.

Lemma heu_expand_request_held (repr_float : Q -> string)
  (state : ExpansionState) (config : RunnableConfig) (numbers : list Z)
  (held : list Candidate) (request : Request) :
  Heu.expand_request repr_float state config = Ok (numbers, held, request) ->
  problem_numbers_of (problem (base state)) = Ok numbers /\
  (forall s, seed state = Some s ->
             held = [] /\
             req_candidate request
             = Heu.hint_prefix ++ Candidate_str repr_float s) /\
  (seed state = None ->
   exists hs, Heu.generate_heuristic_candidates numbers = Ok hs /\
              held = map fresh hs).
Proof.
  unfold Heu.expand_request. intros H.
  apply bind_ok_inv in H as (ns & Hns & H).
  apply bind_ok_inv in H as (prepared & Hprep & H).
  injection H as <- <- <-. split; [exact Hns |].
  destruct (seed state) as [s |].
  - injection Hprep as <-. simpl. split; [| discriminate].
    intros s' [= <-]. auto.
  - apply bind_ok_inv in Hprep as (hs & Hhs & Hprep).
    injection Hprep as <-. simpl. split; [discriminate |]. eauto.
Qed.

(** C6 (amended): a proposal source that raises never makes [expand]
    raise.  In the chain-of-thought notebook [expand] then returns an
    empty candidate list.  In the heuristic notebook, where a raising
    call and a call returning [None] are both absorbed, [expand] returns
    the candidates it held before the call: none when the state has a
    seed, the heuristic candidates when it has none.  A submission
    without equations gives an empty candidate list in both notebooks. *)
Theorem expand_absorbs_proposal_failure (repr_float : Q -> string)
  (invoke : Request -> Submission) (state : ExpansionState)
  (config : RunnableConfig) :
  (forall e : exn,
      invoke (CoT.expand_request repr_float state config) = Raises e ->
      CoT.expand repr_float invoke state config = Ok (only_candidates [])) /\
  (forall g : GuessEquations,
      invoke (CoT.expand_request repr_float state config) = Returns g ->
      equations g = [] ->
      CoT.expand repr_float invoke state config = Ok (only_candidates [])) /\
  (forall (numbers : list Z) (held : list Candidate) (request : Request),
      Heu.expand_request repr_float state config = Ok (numbers, held, request) ->
      ((exists e : exn, invoke request = Raises e) \/ invoke request = ReturnsNone ->
       Heu.expand repr_float invoke state config = Ok (only_candidates held)) /\
      (forall g : GuessEquations,
          invoke request = Returns g -> equations g = [] ->
          Heu.expand repr_float invoke state config = Ok (only_candidates [])) /\
      (forall s : Candidate, seed state = Some s -> held = []) /\
      (seed state = None ->
       exists hs : list Equation,
         Heu.generate_heuristic_candidates numbers = Ok hs /\
         held = map fresh hs)).
Proof.
  split; [| split].
  - intros e He. unfold CoT.expand. now rewrite He.
  - intros g Hg Hnil. unfold CoT.expand. now rewrite Hg, Hnil.
  - intros numbers held request Hreq.
    pose proof (heu_expand_request_held _ _ _ _ _ _ Hreq) as (_ & Hseed & Hnone).
    repeat split.
    + intros [(e & He) | He]; unfold Heu.expand; rewrite Hreq; simpl;
        now rewrite He.
    + intros g Hg Hnil. unfold Heu.expand. rewrite Hreq. simpl.
      now rewrite Hg, Hnil.
    + intros s Hs. now apply Hseed in Hs.
    + exact Hnone.
Qed.

(** A seeded expansion of the heuristic notebook whose proposal call
    times out yields no candidates, and does not raise. *)
Example heu_expand_timeout_with_seed :
  Heu.expand (fun _ => "") (fun _ => Raises (ProposalError "timeout"))
             (with_seed (initial_state "1 1 4 6")
                        (fresh {| tokens := [Num 1; Num 1; Op Add] |}))
             Heu.batch_config
  = Ok (only_candidates []).
Proof. reflexivity. Qed.

(** ** Operand validity of the candidates of the heuristic notebook *)

Lemma picks_perm {A : Type} (l : list A) (p : A * list A) :
  In p (picks l) -> Permutation (fst p :: snd p) l.
Proof.
  revert p; induction l as [| x l IH]; intros p; simpl; [tauto |].
  intros [<- | H].
  - apply Permutation_refl.
  - apply in_map_iff in H as (q & <- & Hq). simpl.
    eapply perm_trans; [apply perm_swap | apply perm_skip, IH, Hq].
Qed.

Lemma permutations_upto_perm {A : Type} (n : nat) :
  forall l p : list A,
    List.length l = n -> In p (permutations_upto n l) -> Permutation p l.
Proof.
  induction n as [| n IH]; intros l p Hlen Hin; simpl in Hin.
  - destruct l; [| discriminate]. destruct Hin as [<- | []]. constructor.
  - apply in_flat_map in Hin as (q & Hq & Hin).
    apply in_map_iff in Hin as (r & <- & Hr).
    pose proof (picks_perm l q Hq) as Hp.
    assert (Hlen' : List.length (snd q) = n).
    { apply Permutation_length in Hp. simpl in Hp. lia. }
    eapply perm_trans; [apply perm_skip, (IH _ _ Hlen' Hr) | exact Hp].
Qed.

Lemma map_result_In {A B : Type} (f : A -> result B) (l : list A) :
  forall ys, map_result f l = Ok ys ->
             forall y, In y ys -> exists x, In x l /\ f x = Ok y.
Proof.
  induction l as [| x l IH]; simpl; intros ys H y Hy.
  - injection H as <-. destruct Hy.
  - apply bind_ok_inv in H as (y0 & Hy0 & H).
    apply bind_ok_inv in H as (ys0 & Hys0 & H).
    injection H as <-. destruct Hy as [<- | Hy].
    + eauto.
    + destruct (IH ys0 Hys0 y Hy) as (x' & Hx' & Hf). eauto.
Qed.

Lemma Qlt_bool_inject_Z (a b : Z) :
  Qlt_bool (inject_Z a) (inject_Z b) = (a <? b)%Z.
Proof.
  unfold Qlt_bool, Qle_bool. simpl. rewrite !Z.mul_1_r.
  symmetry. apply Z.ltb_antisym.
Qed.

Lemma sorted_floats_inject_Z (l : list Z) :
  sorted_floats (map inject_Z l) = map inject_Z (sorted_ints l).
Proof.
  unfold sorted_floats, sorted_ints.
  induction l as [| x l IH]; simpl; [reflexivity |].
  rewrite IH. generalize (sorted Z.ltb l) as m.
  induction m as [| y m IHm]; simpl; [reflexivity |].
  rewrite Qlt_bool_inject_Z. destruct (y <? x)%Z; simpl; [now rewrite IHm | reflexivity].
Qed.

Lemma floats_eq_ints_refl (l : list Z) : floats_eq_ints (map inject_Z l) l = true.
Proof.
  induction l as [| x l IH]; simpl; [reflexivity |].
  rewrite IH, andb_true_r. apply Qeq_bool_refl.
Qed.

Lemma slice_to_In {A : Type} (l : list A) (n : Z) (x : A) :
  In x (slice_to l n) -> In x l.
Proof.
  unfold slice_to. destruct (0 <=? n)%Z; intros H;
    match type of H with
    | In _ (firstn ?k _) => rewrite <- (firstn_skipn k l)
    end; apply in_or_app; now left.
Qed.

(** An integer of no more than 53 bits is a float. *)
Lemma small_int_exact (n : Z) : (Z.abs n <= 2 ^ 53)%Z -> exact_float n.
Proof.
  intros Hn. unfold exact_float.
  destruct (Z.eq_dec (Z.abs n) (2 ^ 53)) as [Heq | Hne].
  - destruct (Z.abs_eq_or_opp n) as [H | H]; rewrite H in Heq.
    + subst n. reflexivity.
    + assert (Hn' : n = (- 2 ^ 53)%Z) by lia. subst n. reflexivity.
  - unfold float_of_int.
    assert (Hlog : (Z.log2 (Z.abs n) + 1 - 53 <= 0)%Z).
    { destruct (Z.eq_dec (Z.abs n) 0) as [H0 | H0].
      - rewrite H0. simpl. lia.
      - assert (Z.log2 (Z.abs n) < 53)%Z; [| lia].
        apply Z.log2_lt_pow2; lia. }
    apply Z.leb_le in Hlog. now rewrite Hlog.
Qed.

(** [float(n)] raises nothing but its [OverflowError]. *)
Lemma float_of_int_raise (n : Z) (x : exn) :
  float_of_int n = Raise x ->
  x = OverflowError "int too large to convert to float".
Proof.
  unfold float_of_int.
  destruct (_ <=? 0)%Z; [discriminate |].
  destruct (2 ^ 1024 <=? _)%Z; [| discriminate].
  now intros [= <-].
Qed.

Lemma tuple_item_ok {A : Type} (t : list A) (i : nat) (x : A) :
  tuple_item t i = Ok x <-> nth_error t i = Some x.
Proof.
  unfold tuple_item. destruct (nth_error t i); split; congruence.
Qed.

(** What a token list built by [heuristic_tokens] is. *)
Lemma heuristic_tokens_ok (nums : list Z)
  (ops : OperatorType * OperatorType * OperatorType) (ts : list TokenType) :
  Heu.heuristic_tokens nums ops = Ok ts ->
  exists n0 n1 n2 n3 rest v0 v1 v2 v3 o0 o1 o2,
    nums = n0 :: n1 :: n2 :: n3 :: rest /\
    float_of_int n0 = Ok v0 /\ float_of_int n1 = Ok v1 /\
    float_of_int n2 = Ok v2 /\ float_of_int n3 = Ok v3 /\
    ts = [Num (inject_Z v0); Num (inject_Z v1); Op o0;
          Num (inject_Z v2); Op o1; Num (inject_Z v3); Op o2].
Proof.
  unfold Heu.heuristic_tokens. destruct ops as ((o0 & o1) & o2). intros H.
  apply bind_ok_inv in H as (v0 & H0 & H).
  apply bind_ok_inv in H as (v1 & H1 & H).
  apply bind_ok_inv in H as (v2 & H2 & H).
  apply bind_ok_inv in H as (v3 & H3 & H).
  apply bind_ok_inv in H0 as (n0 & Hn0 & H0).
  apply bind_ok_inv in H1 as (n1 & Hn1 & H1).
  apply bind_ok_inv in H2 as (n2 & Hn2 & H2).
  apply bind_ok_inv in H3 as (n3 & Hn3 & H3).
  apply tuple_item_ok in Hn0, Hn1, Hn2, Hn3.
  destruct nums as [| m0 [| m1 [| m2 [| m3 rest]]]]; try discriminate.
  simpl in Hn0, Hn1, Hn2, Hn3.
  injection Hn0 as ->. injection Hn1 as ->.
  injection Hn2 as ->. injection Hn3 as ->. injection H as <-.
  exists n0, n1, n2, n3, rest, v0, v1, v2, v3, o0, o1, o2. auto 10.
Qed.

Lemma in_float_range_false (n : Z) :
  in_float_range n = false <->
  float_of_int n = Raise (OverflowError "int too large to convert to float").
Proof.
  unfold in_float_range. destruct (float_of_int n) as [v | x] eqn:E.
  - split; discriminate.
  - apply float_of_int_raise in E as ->. split; reflexivity.
Qed.

Lemma in_float_range_true (n : Z) :
  in_float_range n = true <-> exists v, float_of_int n = Ok v.
Proof.
  unfold in_float_range. destruct (float_of_int n) as [v | x].
  - split; eauto.
  - split; [discriminate | intros (v & H); discriminate H].
Qed.

(** When [heuristic_tokens] returns and what it raises: the items are
    evaluated from left to right, so a number beyond the range that
    stands before the missing index wins over the [IndexError]. *)
Lemma heuristic_tokens_cases (nums : list Z)
  (ops : OperatorType * OperatorType * OperatorType) :
  match Heu.heuristic_tokens nums ops with
  | Ok _ =>
      (4 <= List.length nums)%nat /\
      Forall (fun n => in_float_range n = true) (firstn 4 nums)
  | Raise x =>
      (x = OverflowError "int too large to convert to float" /\
       Exists (fun n => in_float_range n = false) (firstn 4 nums)) \/
      (x = IndexError "tuple index out of range" /\
       (List.length nums < 4)%nat /\
       Forall (fun n => in_float_range n = true) nums)
  end.
Proof.
  unfold Heu.heuristic_tokens, tuple_item. destruct ops as ((o0 & o1) & o2).
  destruct nums as [| n0 nums]; simpl; [right; auto with arith |].
  destruct (float_of_int n0) as [v0 | x0] eqn:E0; simpl;
    [| apply float_of_int_raise in E0 as E0'; subst x0; left; split; [reflexivity |];
       apply Exists_cons_hd, in_float_range_false, E0].
  assert (R0 : in_float_range n0 = true) by (apply in_float_range_true; eauto).
  destruct nums as [| n1 nums]; simpl;
    [right; repeat split; auto with arith |].
  destruct (float_of_int n1) as [v1 | x1] eqn:E1; simpl;
    [| apply float_of_int_raise in E1 as E1'; subst x1; left; split; [reflexivity |];
       apply Exists_cons_tl, Exists_cons_hd, in_float_range_false, E1].
  assert (R1 : in_float_range n1 = true) by (apply in_float_range_true; eauto).
  destruct nums as [| n2 nums]; simpl;
    [right; repeat split; auto with arith |].
  destruct (float_of_int n2) as [v2 | x2] eqn:E2; simpl;
    [| apply float_of_int_raise in E2 as E2'; subst x2; left; split; [reflexivity |];
       apply Exists_cons_tl, Exists_cons_tl, Exists_cons_hd, in_float_range_false, E2].
  assert (R2 : in_float_range n2 = true) by (apply in_float_range_true; eauto).
  destruct nums as [| n3 nums]; simpl;
    [right; repeat split; auto with arith |].
  destruct (float_of_int n3) as [v3 | x3] eqn:E3; simpl;
    [| apply float_of_int_raise in E3 as E3'; subst x3; left; split; [reflexivity |];
       do 3 apply Exists_cons_tl; apply Exists_cons_hd, in_float_range_false, E3].
  assert (R3 : in_float_range n3 = true) by (apply in_float_range_true; eauto).
  split; [lia | auto].
Qed.

(** What every element of the list built by the two loops looks like. *)
Lemma heuristic_built (numbers : list Z) (built : list Equation) :
  map_result (fun p => ts <- Heu.heuristic_tokens (fst p) (snd p) ;;
                       Ok {| tokens := ts |})
             (list_prod (permutations numbers) Heu.op_combos) = Ok built ->
  Forall (fun eq =>
            exists n0 n1 n2 n3 rest v0 v1 v2 v3 o0 o1 o2,
              Permutation (n0 :: n1 :: n2 :: n3 :: rest) numbers /\
              float_of_int n0 = Ok v0 /\ float_of_int n1 = Ok v1 /\
              float_of_int n2 = Ok v2 /\ float_of_int n3 = Ok v3 /\
              tokens eq = [Num (inject_Z v0); Num (inject_Z v1); Op o0;
                           Num (inject_Z v2); Op o1; Num (inject_Z v3); Op o2])
         built.
Proof.
  intros Hbuilt. apply Forall_forall. intros eq Hin.
  destruct (map_result_In _ _ _ Hbuilt eq Hin) as ((nums & ops) & Hprod & Hf).
  apply in_prod_iff in Hprod as (Hnums & _).
  apply permutations_upto_perm in Hnums; [| reflexivity].
  simpl in Hf. apply bind_ok_inv in Hf as (ts & Hts & Hf). injection Hf as <-.
  apply heuristic_tokens_ok in Hts
    as (n0 & n1 & n2 & n3 & rest & v0 & v1 & v2 & v3 & o0 & o1 & o2
        & -> & H0 & H1 & H2 & H3 & ->).
  exists n0, n1, n2, n3, rest, v0, v1, v2, v3, o0, o1, o2. auto 10.
Qed.

(** On a problem of four numbers, each of which a float holds, every
    heuristic candidate uses exactly the problem numbers. *)
Lemma heuristic_candidates_valid (numbers : list Z) (hs : list Equation) :
  List.length numbers = 4%nat ->
  Forall exact_float numbers ->
  Heu.generate_heuristic_candidates numbers = Ok hs ->
  Forall (fun eq => is_valid_equation (tokens eq) numbers = true) hs.
Proof.
  intros Hlen Hexact H. unfold Heu.generate_heuristic_candidates in H.
  apply bind_ok_inv in H as (built & Hbuilt & H). injection H as <-.
  pose proof (heuristic_built _ _ Hbuilt) as Hshape.
  rewrite Forall_forall in Hshape. apply Forall_forall. intros eq Hin.
  apply slice_to_In in Hin. apply filter_In in Hin as (Hin & _).
  destruct (Hshape eq Hin)
    as (n0 & n1 & n2 & n3 & rest & v0 & v1 & v2 & v3 & o0 & o1 & o2
        & Hnums & H0 & H1 & H2 & H3 & Hts).
  pose proof (Permutation_length Hnums) as Hl. rewrite Hlen in Hl.
  destruct rest; [| discriminate].
  assert (Hall : Forall exact_float [n0; n1; n2; n3]).
  { rewrite Forall_forall in *. intros n Hn. apply Hexact.
    exact (Permutation_in _ Hnums Hn). }
  inversion Hall as [| ? ? E0 Hall1]; subst.
  inversion Hall1 as [| ? ? E1 Hall2]; subst.
  inversion Hall2 as [| ? ? E2 Hall3]; subst.
  inversion Hall3 as [| ? ? E3 _]; subst.
  unfold exact_float in E0, E1, E2, E3.
  rewrite E0 in H0. rewrite E1 in H1. rewrite E2 in H2. rewrite E3 in H3.
  injection H0 as <-. injection H1 as <-. injection H2 as <-. injection H3 as <-.
  unfold is_valid_equation. rewrite Hts. simpl literals.
  change [inject_Z n0; inject_Z n1; inject_Z n2; inject_Z n3]
    with (map inject_Z [n0; n1; n2; n3]).
  rewrite sorted_floats_inject_Z, (sorted_ints_perm _ _ Hnums).
  apply floats_eq_ints_refl.
Qed.

Lemma heu_expand_valid (repr_float : Q -> string)
  (invoke : Request -> Submission) (state : ExpansionState)
  (config : RunnableConfig) (numbers : list Z) (u : Update) :
  problem_numbers_of (problem (base state)) = Ok numbers ->
  List.length numbers = 4%nat ->
  Forall exact_float numbers ->
  Heu.expand repr_float invoke state config = Ok u ->
  exists cs, u = only_candidates cs /\ Forall (valid_candidate numbers) cs.
Proof.
  intros Hparse Hlen Hexact H. unfold Heu.expand in H.
  apply bind_ok_inv in H as (((ns & held) & request) & Hreq & H).
  pose proof (heu_expand_request_held _ _ _ _ _ _ Hreq) as (Hns & Hseed & Hnone).
  rewrite Hparse in Hns. injection Hns as <-.
  assert (Hheld : Forall (valid_candidate numbers) held).
  { destruct (seed state) as [s |].
    - destruct (Hseed s eq_refl) as (-> & _). constructor.
    - destruct (Hnone eq_refl) as (hs & Hhs & ->).
      apply Forall_map. exact (heuristic_candidates_valid _ _ Hlen Hexact Hhs). }
  injection H as <-.
  destruct (invoke request) as [e | | g]; eexists; split; try reflexivity; auto.
  apply Forall_map, Forall_forall. intros eq Hin.
  apply filter_In in Hin as (_ & Hv). exact Hv.
Qed.

Lemma compute_score_keeps_equation (repr_float : Q -> string)
  (problem : string) (c : Candidate) (sc : ScoredCandidate) :
  compute_score repr_float problem c = Ok sc ->
  Scored.candidate sc = Cand.candidate c.
Proof.
  unfold compute_score. intros H.
  apply bind_ok_inv in H as (numbers & _ & H).
  destruct (negb _); [now injection H as <- |].
  destruct (compute (Cand.candidate c)); now injection H as <-.
Qed.

Lemma score_valid (repr_float : Q -> string) (numbers : list Z)
  (state : ToTState) (u : Update) :
  score repr_float state = Ok u ->
  valid_state numbers state -> valid_state numbers (apply_update state u).
Proof.
  unfold score. intros H (Hc & Hs).
  apply bind_ok_inv in H as (scored & Hscored & H). injection H as <-.
  split; simpl; [constructor |].
  apply Forall_app. split; [exact Hs |].
  apply Forall_forall. intros sc Hin.
  destruct (map_result_In _ _ _ Hscored sc Hin) as (c & Hc_in & Hsc).
  unfold valid_scored. rewrite (compute_score_keeps_equation _ _ _ _ Hsc).
  rewrite Forall_forall in Hc. exact (Hc c Hc_in).
Qed.

Lemma prune_valid (default_max_depth : Z) (numbers : list Z)
  (state : ToTState) (config : RunnableConfig) :
  valid_state numbers state ->
  valid_state numbers (apply_update state (prune default_max_depth state config)).
Proof.
  intros (Hc & Hs). split; simpl; [| constructor].
  apply Forall_app. split; [exact Hc |].
  apply Forall_map, Forall_forall. intros sc Hin.
  apply slice_to_In in Hin.
  apply (Permutation_in _ (sorted_by_score_desc_perm _)) in Hin.
  rewrite Forall_forall in Hs. exact (Hs sc Hin).
Qed.

Lemma heu_expand_all_valid (repr_float : Q -> string)
  (solver : nat -> Request -> Submission) (config : RunnableConfig)
  (numbers : list Z) (text : string) (inputs : list ExpansionState) :
  problem_numbers_of text = Ok numbers ->
  List.length numbers = 4%nat ->
  Forall exact_float numbers ->
  Forall (fun i => problem (base i) = text) inputs ->
  forall (n : nat) (us : list Update) (state : ToTState),
    expand_all (Heu.expand repr_float) solver n inputs config = Ok us ->
    valid_state numbers state ->
    valid_state numbers (fold_left apply_update us state) /\
    problem (fold_left apply_update us state) = problem state.
Proof.
  intros Hparse Hlen Hexact.
  induction 1 as [| i inputs Hi _ IH]; intros n us state H Hvalid; simpl in H.
  - injection H as <-. simpl. auto.
  - apply bind_ok_inv in H as (u & Hu & H).
    apply bind_ok_inv in H as (us' & Hus' & H). injection H as <-. simpl.
    rewrite <- Hi in Hparse.
    destruct (heu_expand_valid _ _ _ _ _ _ Hparse Hlen Hexact Hu)
      as (cs & -> & Hcs).
    destruct (IH _ _ (apply_update state (only_candidates cs)) Hus') as (Hv & Hp).
    + destruct Hvalid as (Hc & Hs). split; simpl; [| exact Hs].
      apply Forall_app. auto.
    + split; [exact Hv | exact Hp].
Qed.

Lemma heu_should_terminate_sends (state : ToTState) (config : RunnableConfig)
  (payloads : list ExpansionState) :
  Heu.should_terminate state config = Ok (Sends payloads) ->
  payloads = map (with_seed state) (candidates state).
Proof.
  unfold Heu.should_terminate.
  destruct (candidates state) as [| c0 cs] eqn:E; [discriminate |].
  intros H. apply bind_ok_inv in H as (solved & _ & H).
  destruct (solved || _); [discriminate |]. now injection H as <-.
Qed.

Lemma heu_superstep_valid (repr_float : Q -> string)
  (solver : nat -> Request -> Submission) (config : RunnableConfig)
  (numbers : list Z) (p : Pending) (state state' : ToTState) (n n' : nat)
  (next : option Pending) :
  problem_numbers_of (problem state) = Ok numbers ->
  List.length numbers = 4%nat ->
  Forall exact_float numbers ->
  superstep repr_float Heu.default_max_depth (Heu.expand repr_float)
            Heu.should_terminate solver config p state n
  = Ok (state', n', next) ->
  valid_state numbers state -> same_problem (problem state) p ->
  valid_state numbers state' /\ problem state' = problem state /\
  (forall p', next = Some p' -> same_problem (problem state') p').
Proof.
  intros Hparse Hlen Hexact H Hvalid Hsame.
  destruct p as [inputs | |]; simpl in H.
  - apply bind_ok_inv in H as (us & Hus & H). injection H as <- <- <-.
    destruct (heu_expand_all_valid _ _ _ _ _ _ Hparse Hlen Hexact Hsame
                                   _ _ _ Hus Hvalid)
      as (Hv & Hp).
    split; [exact Hv | split; [exact Hp |]]. intros p' [= <-]. exact I.
  - apply bind_ok_inv in H as (u & Hu & H). injection H as <- <- <-.
    split; [apply (score_valid _ _ _ _ Hu Hvalid) | split; [reflexivity |]].
    intros p' [= <-]. exact I.
  - apply bind_ok_inv in H as (r & Hr & H).
    pose proof (prune_valid Heu.default_max_depth _ _ config Hvalid) as Hv.
    destruct r as [| payloads]; injection H as <- <- <-.
    + split; [exact Hv | split; [reflexivity | discriminate]].
    + split; [exact Hv | split; [reflexivity |]]. intros p' [= <-]. simpl.
      rewrite (heu_should_terminate_sends _ _ _ Hr).
      apply Forall_map, Forall_forall. reflexivity.
Qed.

Lemma heu_run_steps_valid (repr_float : Q -> string)
  (solver : nat -> Request -> Submission) (config : RunnableConfig)
  (numbers : list Z) (limit : nat) :
  List.length numbers = 4%nat ->
  Forall exact_float numbers ->
  forall (p : Pending) (state final : ToTState) (n : nat),
    problem_numbers_of (problem state) = Ok numbers ->
    run_steps repr_float Heu.default_max_depth (Heu.expand repr_float)
              Heu.should_terminate solver limit config p state n = Ok final ->
    valid_state numbers state -> same_problem (problem state) p ->
    valid_state numbers final.
Proof.
  intros Hlen Hexact. induction limit as [| limit IH];
    intros p state final n Hparse H Hvalid Hsame; simpl in H; [discriminate |].
  apply bind_ok_inv in H as (((state' & n') & next) & Hstep & H).
  destruct (heu_superstep_valid _ _ _ _ _ _ _ _ _ _ Hparse Hlen Hexact Hstep
                                Hvalid Hsame)
    as (Hv & Hp & Hnext).
  destruct next as [p' |].
  - apply (IH p' state' final n'); auto.
    + now rewrite Hp.
  - now injection H as <-.
Qed.

(** C10: in the heuristic notebook the candidates [expand] makes from a
    submission of the proposal source are exactly the submitted equations
    that pass [is_valid_equation] against the problem numbers; an
    equation that fails the check is dropped.  On a problem of four
    numbers, each of which a float holds exactly (every integer up to
    2^53 in magnitude), no candidate of the final frontier of a run fails
    the check: the heuristic candidates of the first round pass it too.
    (A number that [float] rounds gives heuristic candidates that fail
    it, see [heuristic_candidates_of_rounded_numbers].) *)
Theorem heu_expand_drops_invalid_proposals (repr_float : Q -> string)
  (invoke : Request -> Submission) (state : ExpansionState)
  (config : RunnableConfig) (numbers : list Z) (held : list Candidate)
  (request : Request) (g : GuessEquations)
  (Hrequest : Heu.expand_request repr_float state config
              = Ok (numbers, held, request))
  (Hsubmission : invoke request = Returns g) :
  problem_numbers_of (problem (base state)) = Ok numbers /\
  exists cs : list Candidate,
    Heu.expand repr_float invoke state config = Ok (only_candidates cs) /\
    cs = map fresh
             (filter (fun eq => is_valid_equation (tokens eq) numbers)
                     (equations g)) /\
    Forall (valid_candidate numbers) cs /\
    (forall eq : Equation,
        In eq (equations g) ->
        is_valid_equation (tokens eq) numbers = false ->
        forall c : Candidate, In c cs -> Cand.candidate c <> eq) /\
    (forall (solver : nat -> Request -> Submission) (final : ToTState),
        List.length numbers = 4%nat ->
        Forall exact_float numbers ->
        Heu.run_graph repr_float solver (problem (base state)) config = Ok final ->
        Forall (valid_candidate numbers) (candidates final)).
Proof.
  pose proof (heu_expand_request_held _ _ _ _ _ _ Hrequest) as (Hparse & _).
  split; [exact Hparse |].
  eexists. split; [| split; [reflexivity |]].
  - unfold Heu.expand. rewrite Hrequest. simpl. now rewrite Hsubmission.
  - assert (Hall : Forall (valid_candidate numbers)
                     (map fresh
                          (filter (fun eq => is_valid_equation (tokens eq) numbers)
                                  (equations g)))).
    { apply Forall_map, Forall_forall. intros eq Hin.
      apply filter_In in Hin as (_ & Hv). exact Hv. }
    split; [exact Hall | split].
    + intros eq _ Hbad c Hc <-.
      rewrite Forall_forall in Hall. specialize (Hall c Hc).
      unfold valid_candidate in Hall. congruence.
    + intros solver final Hlen Hexact Hrun.
      unfold Heu.run_graph, run_graph in Hrun.
      eapply heu_run_steps_valid in Hrun; eauto.
      * apply Hrun.
      * split; constructor.
      * simpl. constructor; [reflexivity | constructor].
Qed.

Lemma heu_expand_drops_invalid_proposals_witness :
  let good := {| tokens := [Num 6; Num 4; Op Mul; Num 1; Op Mul; Num 1; Op Mul] |} in
  let bad := {| tokens := [Num 6; Num 4; Op Mul] |} in
  let invoke := fun _ : Request =>
                  Returns {| reasoning := ""; equations := [bad; good] |} in
  Heu.expand (fun _ => "") invoke (no_seed (initial_state "1 1 4 6"))
             Heu.batch_config
  = Ok (only_candidates [fresh good]) /\
  exists final : ToTState,
    Heu.run_graph (fun _ => "") (fun _ => invoke) "1 1 4 6" Heu.batch_config
    = Ok final /\
    Forall (valid_candidate [1; 1; 4; 6]%Z) (candidates final).
Proof.
  intros good bad invoke.
  destruct (Heu.expand_request (fun _ => "") (no_seed (initial_state "1 1 4 6"))
                               Heu.batch_config)
    as [((numbers & held) & request) | e] eqn:Hrequest;
    [| vm_compute in Hrequest; discriminate Hrequest].
  destruct (heu_expand_drops_invalid_proposals
              (fun _ => "") invoke (no_seed (initial_state "1 1 4 6"))
              Heu.batch_config numbers held request
              {| reasoning := ""; equations := [bad; good] |}
              Hrequest eq_refl)
    as (Hparse & cs & Hexpand & Hcs & _ & _ & Hfrontier).
  vm_compute in Hparse. injection Hparse as <-. split.
  - rewrite Hexpand, Hcs. reflexivity.
  - destruct (Heu.run_graph (fun _ => "") (fun _ => invoke) "1 1 4 6"
                            Heu.batch_config)
      as [final | e] eqn:Hrun; [| vm_compute in Hrun; discriminate Hrun].
    exists final. split; [reflexivity |].
    apply (Hfrontier (fun _ => invoke) final); [reflexivity | | exact Hrun].
    repeat constructor.
Defined.

(** ** The fan-out after a round and the seed of each branch *)

Lemma append_assoc (s1 s2 s3 : string) : (s1 ++ s2) ++ s3 = s1 ++ s2 ++ s3.
Proof.
  induction s1 as [| c s1 IH]; simpl; [reflexivity | now rewrite IH].
Qed.

Lemma cot_should_terminate_sends (state : ToTState) (config : RunnableConfig)
  (payloads : list ExpansionState) :
  CoT.should_terminate state config = Ok (Sends payloads) ->
  payloads = map (with_somevalseed state) (candidates state).
Proof.
  unfold CoT.should_terminate.
  destruct (candidates state) as [| c0 cs] eqn:E; [discriminate |].
  intros H. apply bind_ok_inv in H as (solved & _ & H).
  destruct (solved || _); [discriminate |]. now injection H as <-.
Qed.

(** The rendering of a seed names its expression and its score. *)
Lemma Candidate_str_describes (repr_float : Q -> string) (c : Candidate)
  (prefix : string) :
  occurs_in (repr_tokens repr_float (tokens (Cand.candidate c)))
            (prefix ++ Candidate_str repr_float c) /\
  occurs_in (repr_score repr_float (Cand.score c))
            (prefix ++ Candidate_str repr_float c).
Proof.
  unfold Candidate_str, occurs_in.
  set (computed := match compute (Cand.candidate c) with
                   | Ok v => _
                   | Raise e => _
                   end).
  set (expression := repr_tokens repr_float (tokens (Cand.candidate c))).
  set (reward := repr_score repr_float (Cand.score c)).
  split.
  - exists (prefix ++ "Equation("),
           (") = " ++ computed ++ " (Reward: " ++ reward ++ ")").
    now rewrite append_assoc.
  - exists (prefix ++ "Equation(" ++ expression ++ ") = " ++ computed
            ++ " (Reward: "), ")".
    now rewrite !append_assoc.
Qed.

(** In the heuristic notebook the claim of C2 holds: one expansion per
    frontier member, that member passed as the seed, and the request of
    the expansion carries a hint with the seed's expression and score. *)
Lemma heu_expansion_passes_seed (repr_float : Q -> string) (state : ToTState)
  (config : RunnableConfig) (payloads : list ExpansionState) :
  Heu.should_terminate state config = Ok (Sends payloads) ->
  Forall2 (fun c p =>
             seed p = Some c /\
             forall numbers held request,
               Heu.expand_request repr_float p config
               = Ok (numbers, held, request) ->
               req_candidate request
               = Heu.hint_prefix ++ Candidate_str repr_float c /\
               occurs_in (repr_tokens repr_float (tokens (Cand.candidate c)))
                         (req_candidate request) /\
               occurs_in (repr_score repr_float (Cand.score c))
                         (req_candidate request))
          (candidates state) payloads.
Proof.
  intros H. apply heu_should_terminate_sends in H as ->.
  induction (candidates state) as [| c cs IH]; simpl; constructor; [| exact IH].
  split; [reflexivity |]. intros numbers held request Hreq.
  destruct (heu_expand_request_held _ _ _ _ _ _ Hreq) as (_ & Hseed & _).
  destruct (Hseed c eq_refl) as (_ & ->).
  split; [reflexivity |]. apply Candidate_str_describes.
Qed.

(** C2 fails in the chain-of-thought notebook: the branch of every
    frontier member is sent with the member under the key "somevalseed";
    [expand] reads the key "seed", finds none, and sends the request of
    round 0, without any hint about the member. *)
Theorem cot_expansion_loses_seed (repr_float : Q -> string) (state : ToTState)
  (config : RunnableConfig) (payloads : list ExpansionState)
  (Hroute : CoT.should_terminate state config = Ok (Sends payloads)) :
  Forall2 (fun c p =>
             somevalseed p = Some c /\ seed p = None /\
             req_candidate (CoT.expand_request repr_float p config) = "" /\
             CoT.expand_request repr_float p config
             = CoT.expand_request repr_float (no_seed state) config /\
             forall invoke : Request -> Submission,
               CoT.expand repr_float invoke p config
               = CoT.expand repr_float invoke (no_seed state) config)
          (candidates state) payloads.
Proof.
  apply cot_should_terminate_sends in Hroute as ->.
  induction (candidates state) as [| c cs IH]; simpl; constructor; [| exact IH].
  repeat split.
Qed.

Lemma cot_expansion_loses_seed_witness :
  let member := {| Cand.candidate := {| tokens := [Num 1; Num 1; Op Add;
                                                   Num 4; Op Add; Num 6; Op Add] |};
                   Cand.score := Some (1 # 13);
                   Cand.feedback := Some "Result: 12.0" |} in
  let state := {| problem := "1 1 4 6"; candidates := [member];
                  scored_candidates := []; depth := 1%Z |} in
  Forall2 (fun c p =>
             somevalseed p = Some c /\ seed p = None /\
             req_candidate (CoT.expand_request (fun _ => "12.0") p CoT.batch_config)
             = "" /\
             CoT.expand_request (fun _ => "12.0") p CoT.batch_config
             = CoT.expand_request (fun _ => "12.0") (no_seed state)
                                  CoT.batch_config /\
             forall invoke : Request -> Submission,
               CoT.expand (fun _ => "12.0") invoke p CoT.batch_config
               = CoT.expand (fun _ => "12.0") invoke (no_seed state)
                            CoT.batch_config)
          [member] [with_somevalseed state member].
Proof.
  intros member state.
  apply (cot_expansion_loses_seed (fun _ => "12.0") state CoT.batch_config
           [with_somevalseed state member]).
  reflexivity.
Defined.

(** ** The threshold of the termination check *)

(** C7 fails in both notebooks: [_ensure_configurable] looks the
    threshold up in the run configuration itself, not in its
    "configurable" entry, so a threshold supplied there (0.99 in
    [run_tot_on_many_problems]) is replaced by 0.9.  On the problem
    "1 11 11 13" with the proposal [13, 11, '+', 1, 11, '/', '+'] (score
    11/12) the search ends as solved after one round, while
    [run_tot_on_problem], which reads the supplied 0.99, reports the run
    unsolved. *)
Theorem supplied_threshold_is_ignored :
  (forall (default_max_depth : Z) (c : Configurable) (limit : option nat),
      threshold (_ensure_configurable default_max_depth
                   {| configurable := Some c; top_threshold := None;
                      recursion_limit := limit |}) = 9 # 10) /\
  (let member := {| Cand.candidate :=
                      {| tokens := [Num 13; Num 11; Op Add; Num 1; Num 11;
                                    Op Div; Op Add] |};
                    Cand.score := Some (11 # 12);
                    Cand.feedback := Some "" |} in
   let state := {| problem := "1 11 11 13"; candidates := [member];
                   scored_candidates := []; depth := 1%Z |} in
   get_threshold (get (configurable Heu.batch_config) no_keys) = Some (99 # 100) /\
   Qle_bool (99 # 100) (11 # 12) = false /\
   Heu.should_terminate state Heu.batch_config = Ok END /\
   CoT.should_terminate state CoT.batch_config = Ok END) /\
  (exists r : Res.RunResult,
      Heu.run_tot_on_problem
        (fun _ => "")
        (fun _ _ => Returns {| reasoning := "";
                               equations :=
                                 [{| tokens := [Num 13; Num 11; Op Add; Num 1;
                                                Num 11; Op Div; Op Add] |}] |})
        "1 11 11 13" Heu.batch_config = Ok r /\
      Res.solved r = false /\ Res.depth r = 1%Z /\
      (Res.best_score r == 11 # 12)%Q).
Proof.
  split; [reflexivity | split].
  - repeat split.
  - eexists. split; [vm_compute; reflexivity |]. repeat split.
Qed.

(** ** The empty frontier *)

(** C1 fails: when the frontier is empty after pruning, the termination
    check of the heuristic notebook ends the run, but the one of the
    chain-of-thought notebook raises on [candidates[0]], and
    [run_tot_on_problem] raises on the maximum of an empty list; the
    batch runner records such a run as an error entry. *)
Theorem empty_frontier_breaks_best_extraction :
  (forall (state : ToTState) (config : RunnableConfig),
      candidates state = [] -> Heu.should_terminate state config = Ok END) /\
  (forall (state : ToTState) (config : RunnableConfig),
      candidates state = [] ->
      CoT.should_terminate state config
      = Raise (IndexError "list index out of range")) /\
  (forall (repr_float : Q -> string) (solver : nat -> Request -> Submission)
          (problem : string) (config : RunnableConfig) (final : ToTState),
      Heu.run_graph repr_float solver problem config = Ok final ->
      candidates final = [] ->
      Heu.run_tot_on_problem repr_float solver problem config
      = Raise (ValueError "max() iterable argument is empty")) /\
  Heu.run_tot_on_problem
    (fun _ => "") (fun _ _ => Returns {| reasoning := ""; equations := [] |})
    "1 1 2 6" Heu.batch_config
  = Raise (ValueError "max() iterable argument is empty") /\
  CoT.run_tot_on_problem
    (fun _ => "") (fun _ _ => Raises (ProposalError "timeout"))
    "1 1 2 6" CoT.batch_config
  = Raise (IndexError "list index out of range") /\
  Heu.run_tot_on_many_problems
    (fun _ => "") (fun _ _ _ => Returns {| reasoning := ""; equations := [] |})
    ["1 1 2 6"] 10
  = [{| Res.solved := false; Res.depth := (-1)%Z; Res.best_score := 0;
        Res.equation := "ERROR";
        Res.feedback := Some "max() iterable argument is empty" |}].
Proof.
  split; [| split; [| split; [| split; [| split]]]].
  - intros state config H. unfold Heu.should_terminate. now rewrite H.
  - intros state config H. unfold CoT.should_terminate. now rewrite H.
  - intros repr_float solver problem config final Hrun Hempty.
    unfold Heu.run_tot_on_problem, run_tot_on_problem.
    unfold Heu.run_graph in Hrun. rewrite Hrun. simpl. now rewrite Hempty.
  - vm_compute. reflexivity.
  - vm_compute. reflexivity.
  - vm_compute. reflexivity.
Qed.

(** ** The step ceiling of the engine *)

Section CeilingFacts.
Variable repr_float : Q -> string.
Variable default_max_depth : Z.
Variable expand :
  (Request -> Submission) -> ExpansionState -> RunnableConfig -> result Update.
Variable should_terminate : ToTState -> RunnableConfig -> result Route.
Variable solver : nat -> Request -> Submission.
Variable config : RunnableConfig.

Let pending := StillPending repr_float default_max_depth expand
                            should_terminate solver config.
Let steps_run := run_steps repr_float default_max_depth expand
                           should_terminate solver.

Lemma still_pending_spec (steps : nat) :
  forall (p : Pending) (state : ToTState) (n : nat),
    still_pending repr_float default_max_depth expand should_terminate solver
                  config steps p state n = true ->
    pending steps p state n.
Proof.
  induction steps as [| steps IH]; intros p state n H; simpl in H.
  - constructor.
  - destruct (superstep _ _ _ _ _ _ _ _ _) as [((state' & n') & [p' |]) | e] eqn:E;
      try discriminate.
    econstructor; [exact E | apply IH, H].
Qed.

(** Work that is still scheduled when the ceiling is reached is refused
    with the engine's own error. *)
Lemma run_steps_ceiling (limit : nat) :
  forall (p : Pending) (state : ToTState) (n : nat),
    pending limit p state n ->
    steps_run limit config p state n = Raise recursion_error.
Proof.
  induction limit as [| limit IH]; intros p state n H; simpl.
  - reflexivity.
  - inversion H as [| ? ? p' ? state' ? n' Hstep Hrest]; subst.
    unfold steps_run in *. simpl. rewrite Hstep. simpl. apply IH, Hrest.
Qed.

(** A run that ends by itself uses fewer steps than the ceiling, and
    every larger ceiling gives the same final state. *)
Lemma run_steps_ok_mono (limit : nat) :
  forall (p : Pending) (state final : ToTState) (n : nat),
    steps_run limit config p state n = Ok final ->
    forall extra : nat, steps_run (limit + extra) config p state n = Ok final.
Proof.
  unfold steps_run.
  induction limit as [| limit IH]; intros p state final n H extra;
    simpl in H; [discriminate |].
  simpl. destruct (superstep _ _ _ _ _ _ _ _ _) as [((state' & n') & next) | e];
    simpl in *; [| discriminate].
  destruct next as [p' |]; [apply IH, H | exact H].
Qed.
End CeilingFacts.

(** Reaching the depth budget ends the run through the conditional edge:
    a normal end, not an error. *)
Lemma budget_reached_ends (state : ToTState) (config : RunnableConfig)
  (c0 : Candidate) (rest : list Candidate) (s : Q) :
  candidates state = c0 :: rest -> Cand.score c0 = Some s ->
  ((max_depth (_ensure_configurable Heu.default_max_depth config)
    <= depth state)%Z ->
   Heu.should_terminate state config = Ok END) /\
  ((max_depth (_ensure_configurable CoT.default_max_depth config)
    <= depth state)%Z ->
   CoT.should_terminate state config = Ok END).
Proof.
  intros Hc Hs.
  split; intros Hd; apply Z.leb_le in Hd;
    unfold Heu.should_terminate, CoT.should_terminate, score_at_least;
    rewrite Hc, Hs; cbv beta iota delta [bind]; rewrite Hd, orb_true_r;
    reflexivity.
Qed.

(** No node of either notebook raises the engine's error. *)
Lemma map_result_raise {A B : Type} (f : A -> result B) (l : list A) (x : exn) :
  map_result f l = Raise x -> exists a, In a l /\ f a = Raise x.
Proof.
  induction l as [| a l IH]; simpl; [discriminate |]. intros H.
  apply bind_raise_inv in H as [H | (y & _ & H)]; [eauto |].
  apply bind_raise_inv in H as [H | (ys & _ & H)]; [| discriminate].
  destruct (IH H) as (a' & Ha' & Hf). eauto.
Qed.

Lemma problem_numbers_of_raise (problem : string) (x : exn) :
  problem_numbers_of problem = Raise x -> is_engine_error x = false.
Proof.
  intros H. apply map_result_raise in H as (w & _ & H).
  unfold int_of_string in H.
  repeat match type of H with
         | match ?t with _ => _ end = _ => destruct t; try discriminate
         end; now injection H as <-.
Qed.

Lemma score_raise (repr_float : Q -> string) (state : ToTState) (x : exn) :
  score repr_float state = Raise x -> is_engine_error x = false.
Proof.
  unfold score. intros H.
  apply bind_raise_inv in H as [H | (? & _ & H)]; [| discriminate].
  apply map_result_raise in H as (c & _ & H). unfold compute_score in H.
  apply bind_raise_inv in H as [H | (numbers & _ & H)].
  - now apply problem_numbers_of_raise in H.
  - destruct (negb _); [discriminate |].
    destruct (compute (Cand.candidate c)); discriminate.
Qed.

Lemma heu_expand_raise (repr_float : Q -> string)
  (invoke : Request -> Submission) (state : ExpansionState)
  (config : RunnableConfig) (x : exn) :
  Heu.expand repr_float invoke state config = Raise x ->
  is_engine_error x = false.
Proof.
  unfold Heu.expand. intros H.
  apply bind_raise_inv in H as [H | (((ns & held) & request) & _ & H)];
    [| discriminate].
  unfold Heu.expand_request in H.
  apply bind_raise_inv in H as [H | (ns & _ & H)];
    [now apply problem_numbers_of_raise in H |].
  apply bind_raise_inv in H as [H | (? & _ & H)]; [| discriminate].
  destruct (seed state); [discriminate |].
  apply bind_raise_inv in H as [H | (? & _ & H)]; [| discriminate].
  unfold Heu.generate_heuristic_candidates in H.
  apply bind_raise_inv in H as [H | (? & _ & H)]; [| discriminate].
  apply map_result_raise in H as ((nums & ops) & _ & H). simpl in H.
  apply bind_raise_inv in H as [H | (? & _ & H)]; [| discriminate].
  pose proof (heuristic_tokens_cases nums ops) as Hcases.
  rewrite H in Hcases. destruct Hcases as [(-> & _) | (-> & _)]; reflexivity.
Qed.

Lemma cot_expand_raise (repr_float : Q -> string)
  (invoke : Request -> Submission) (state : ExpansionState)
  (config : RunnableConfig) (x : exn) :
  CoT.expand repr_float invoke state config = Raise x ->
  is_engine_error x = false.
Proof.
  unfold CoT.expand. destruct (invoke _); try discriminate.
  now intros [= <-].
Qed.

Lemma should_terminate_raise (state : ToTState) (config : RunnableConfig)
  (x : exn) :
  Heu.should_terminate state config = Raise x \/
  CoT.should_terminate state config = Raise x ->
  is_engine_error x = false.
Proof.
  unfold Heu.should_terminate, CoT.should_terminate, score_at_least.
  intros [H | H]; destruct (candidates state) as [| c0 cs];
    try discriminate; try (now injection H as <-);
    destruct (Cand.score c0); simpl in H;
    try (now injection H as <-);
    destruct (_ || _); discriminate.
Qed.

Section CeilingOnly.
Variable repr_float : Q -> string.
Variable default_max_depth : Z.
Variable expand :
  (Request -> Submission) -> ExpansionState -> RunnableConfig -> result Update.
Variable should_terminate : ToTState -> RunnableConfig -> result Route.
Variable solver : nat -> Request -> Submission.
Variable config : RunnableConfig.
Hypothesis expand_raise :
  forall invoke state x,
    expand invoke state config = Raise x -> is_engine_error x = false.
Hypothesis route_raise :
  forall state x,
    should_terminate state config = Raise x -> is_engine_error x = false.

Lemma expand_all_raise (inputs : list ExpansionState) :
  forall (n : nat) (x : exn),
    expand_all expand solver n inputs config = Raise x ->
    is_engine_error x = false.
Proof.
  induction inputs as [| i inputs IH]; intros n x H; simpl in H;
    [discriminate |].
  apply bind_raise_inv in H as [H | (u & _ & H)]; [eauto |].
  apply bind_raise_inv in H as [H | (us & _ & H)]; [eauto | discriminate].
Qed.

Lemma superstep_raise (p : Pending) (state : ToTState) (n : nat) (x : exn) :
  superstep repr_float default_max_depth expand should_terminate solver
            config p state n = Raise x ->
  is_engine_error x = false.
Proof.
  destruct p as [inputs | |]; simpl; intros H.
  - apply bind_raise_inv in H as [H | (? & _ & H)]; [| discriminate].
    now apply expand_all_raise in H.
  - apply bind_raise_inv in H as [H | (? & _ & H)]; [| discriminate].
    now apply score_raise in H.
  - apply bind_raise_inv in H as [H | (r & _ & H)]; [eauto |].
    destruct r; discriminate.
Qed.

(** The engine's error is raised only at the ceiling. *)
Lemma run_steps_ceiling_only (limit : nat) :
  forall (p : Pending) (state : ToTState) (n : nat),
    run_steps repr_float default_max_depth expand should_terminate solver
              limit config p state n = Raise recursion_error ->
    StillPending repr_float default_max_depth expand should_terminate solver
                 config limit p state n.
Proof.
  induction limit as [| limit IH]; intros p state n H; [constructor |].
  simpl in H. apply bind_raise_inv in H as [H | (((state' & n') & next) & Hs & H)].
  - apply superstep_raise in H. discriminate.
  - destruct next as [p' |]; [| discriminate].
    econstructor; [exact Hs | apply IH, H].
Qed.
End CeilingOnly.

(** C4: the engine runs at most [recursion_limit] steps (25 when the run
    configuration gives none), whatever [max_depth] is.  A search that
    still has work scheduled after that many steps fails with the
    engine's recursion error; the error reaches the caller of
    [run_tot_on_problem]; it is not a final state, whereas a run that
    reaches its depth budget ends with one.  In both notebooks the error
    is raised only in that situation. *)
Theorem recursion_limit_is_hard_ceiling (repr_float : Q -> string)
  (default_max_depth : Z)
  (expand : (Request -> Submission) -> ExpansionState -> RunnableConfig
            -> result Update)
  (should_terminate : ToTState -> RunnableConfig -> result Route)
  (solver : nat -> Request -> Submission) (problem : string)
  (config : RunnableConfig)
  (Hpending :
     StillPending repr_float default_max_depth expand should_terminate solver
                  config (get (recursion_limit config) 25%nat)
                  (ToExpand [no_seed (initial_state problem)])
                  (initial_state problem) 0) :
  run_graph repr_float default_max_depth expand should_terminate solver
            problem config = Raise recursion_error /\
  run_tot_on_problem repr_float default_max_depth expand should_terminate
                     solver problem config = Raise recursion_error /\
  (forall final : ToTState,
      run_graph repr_float default_max_depth expand should_terminate solver
                problem config <> Ok final) /\
  (forall (state : ToTState) (c0 : Candidate) (rest : list Candidate) (s : Q),
      candidates state = c0 :: rest -> Cand.score c0 = Some s ->
      ((max_depth (_ensure_configurable Heu.default_max_depth config)
        <= depth state)%Z ->
       Heu.should_terminate state config = Ok END) /\
      ((max_depth (_ensure_configurable CoT.default_max_depth config)
        <= depth state)%Z ->
       CoT.should_terminate state config = Ok END)) /\
  (forall (solver' : nat -> Request -> Submission) (problem' : string),
      (Heu.run_graph repr_float solver' problem' config = Raise recursion_error ->
       StillPending repr_float Heu.default_max_depth (Heu.expand repr_float)
                    Heu.should_terminate solver' config
                    (get (recursion_limit config) 25%nat)
                    (ToExpand [no_seed (initial_state problem')])
                    (initial_state problem') 0) /\
      (CoT.run_graph repr_float solver' problem' config = Raise recursion_error ->
       StillPending repr_float CoT.default_max_depth (CoT.expand repr_float)
                    CoT.should_terminate solver' config
                    (get (recursion_limit config) 25%nat)
                    (ToExpand [no_seed (initial_state problem')])
                    (initial_state problem') 0)).
Proof.
  assert (Hrun : run_graph repr_float default_max_depth expand should_terminate
                           solver problem config = Raise recursion_error).
  { unfold run_graph. apply run_steps_ceiling. exact Hpending. }
  split; [exact Hrun | split; [| split; [| split]]].
  - unfold run_tot_on_problem. now rewrite Hrun.
  - intros final. rewrite Hrun. discriminate.
  - intros state c0 rest s. apply budget_reached_ends.
  - intros solver' problem'. split; intros H.
    + apply run_steps_ceiling_only; [| | exact H].
      * intros invoke state x. apply heu_expand_raise.
      * intros state x Hx. apply (should_terminate_raise state config). now left.
    + apply run_steps_ceiling_only; [| | exact H].
      * intros invoke state x. apply cot_expand_raise.
      * intros state x Hx. apply (should_terminate_raise state config). now right.
Qed.

(** The heuristic notebook with its defaults: a depth budget of 10 rounds
    needs 30 steps, the ceiling of 25 steps is reached in the ninth
    round. *)
Lemma recursion_limit_is_hard_ceiling_witness :
  let solver := fun (_ : nat) (_ : Request) =>
    Returns {| reasoning := "";
               equations := [{| tokens := [Num 1; Num 1; Op Add; Num 4; Op Add;
                                           Num 6; Op Add] |}] |} in
  Heu.run_graph (fun _ => "") solver "1 1 4 6" Heu.batch_config
  = Raise recursion_error /\
  Heu.run_tot_on_problem (fun _ => "") solver "1 1 4 6" Heu.batch_config
  = Raise recursion_error.
Proof.
  intros solver.
  destruct (recursion_limit_is_hard_ceiling
              (fun _ => "") Heu.default_max_depth (Heu.expand (fun _ => ""))
              Heu.should_terminate solver "1 1 4 6" Heu.batch_config)
    as (Hrun & Hcaller & _).
  - apply still_pending_spec. vm_compute. reflexivity.
  - split; [exact Hrun | exact Hcaller].
Defined.

(** With a ceiling of 40 steps the same search ends by its depth budget,
    after 10 rounds, with a final state. *)
Example budget_ends_normally :
  let solver := fun (_ : nat) (_ : Request) =>
    Returns {| reasoning := "";
               equations := [{| tokens := [Num 1; Num 1; Op Add; Num 4; Op Add;
                                           Num 6; Op Add] |}] |} in
  exists final : ToTState,
    Heu.run_graph (fun _ => "") solver "1 1 4 6"
                  {| configurable := configurable Heu.batch_config;
                     top_threshold := None;
                     recursion_limit := Some 40%nat |} = Ok final /\
    depth final = 10%Z.
Proof.
  intros solver. eexists. split; [vm_compute; reflexivity | reflexivity].
Qed.

(** * Further properties of the notebooks *)

(** ** The scorer beyond the claims *)



(** X2: a problem string with a word that is not an integer makes
    [compute_score] raise the [ValueError] of the conversion, whatever the
    candidate is. *)
Theorem compute_score_raises_on_bad_problem (repr_float : Q -> string)
  (problem : string) (c : Candidate) (x : exn)
  (Hparse : problem_numbers_of problem = Raise x) :
  compute_score repr_float problem c = Raise x /\
  exists word : string,
    In word (split problem) /\
    x = ValueError ("invalid literal for int() with base 10: '" ++ word ++ "'").
Proof.
  split.
  - unfold compute_score. now rewrite Hparse.
  - apply map_result_raise in Hparse as (word & Hin & Hword).
    exists word. split; [exact Hin |].
    unfold int_of_string in Hword.
    repeat match type of Hword with
           | match ?t with _ => _ end = _ => destruct t; try discriminate
           end; now injection Hword as <-.
Qed.

Lemma compute_score_raises_on_bad_problem_witness :
  compute_score (fun _ => "") "1 x 3 4" (fresh {| tokens := [Num 1] |})
  = Raise (ValueError "invalid literal for int() with base 10: 'x'").
Proof.
  apply (compute_score_raises_on_bad_problem
           (fun _ => "") "1 x 3 4" (fresh {| tokens := [Num 1] |})
           (ValueError "invalid literal for int() with base 10: 'x'")).
  reflexivity.
Defined.



(** X4: the score of a candidate depends on its equation only; scoring a
    frontier member again, as every round after the first does, gives
    back the same scored candidate. *)
Theorem compute_score_rescoring (repr_float : Q -> string) (problem : string)
  (c : Candidate) (sc : ScoredCandidate)
  (Hscore : compute_score repr_float problem c = Ok sc) :
  compute_score repr_float problem (upcast sc) = Ok sc /\
  forall c' : Candidate,
    Cand.candidate c' = Cand.candidate c ->
    compute_score repr_float problem c' = Ok sc.
Proof.
  assert (Hsame : forall c' : Candidate,
             Cand.candidate c' = Cand.candidate c ->
             compute_score repr_float problem c' = Ok sc).
  { intros c' Heq. rewrite <- Hscore. unfold compute_score. now rewrite Heq. }
  split; [| exact Hsame].
  apply Hsame. simpl. exact (compute_score_keeps_equation _ _ _ _ Hscore).
Qed.

Lemma compute_score_rescoring_witness :
  let c := fresh {| tokens := [Num 1; Num 1; Op Add; Num 4; Op Add;
                               Num 6; Op Add] |} in
  let sc := {| Scored.candidate := Cand.candidate c;
               Scored.score := fitness 12;
               Scored.feedback := "Result: 12.0" |} in
  compute_score (fun _ => "12.0") "1 1 4 6" (upcast sc) = Ok sc.
Proof.
  intros c sc.
  destruct (compute_score_rescoring (fun _ => "12.0") "1 1 4 6" c sc eq_refl)
    as (Hagain & _).
  exact Hagain.
Defined.

(** ** The operand check *)

Lemma floats_eq_ints_iff (xs : list Q) (ns : list Z) :
  floats_eq_ints xs ns = true <-> Forall2 Qeq xs (map inject_Z ns).
Proof.
  revert ns; induction xs as [| x xs IH]; intros [| n ns]; simpl.
  - split; [constructor | reflexivity].
  - split; [discriminate | intros H; inversion H].
  - split; [discriminate | intros H; inversion H].
  - rewrite andb_true_iff, IH, Qeq_bool_iff. split.
    + intros (Hx & Hxs). now constructor.
    + intros H. inversion H; subst. auto.
Qed.

Lemma insert_floats_Qeq (x y : Q) (xs ys : list Q) :
  (x == y)%Q -> Forall2 Qeq xs ys ->
  Forall2 Qeq (insert Qlt_bool x xs) (insert Qlt_bool y ys).
Proof.
  intros Hxy H. induction H as [| a b xs ys Hab Hrest IH]; simpl.
  - constructor; [exact Hxy | constructor].
  - unfold Qlt_bool. rewrite (Qleb_comp _ _ Hxy _ _ Hab).
    destruct (negb (Qle_bool y b)).
    + constructor; [exact Hab | exact IH].
    + constructor; [exact Hxy |]. constructor; [exact Hab | exact Hrest].
Qed.

Lemma sorted_floats_Qeq (xs ys : list Q) :
  Forall2 Qeq xs ys -> Forall2 Qeq (sorted_floats xs) (sorted_floats ys).
Proof.
  unfold sorted_floats. induction 1 as [| x y xs ys Hxy _ IH]; simpl.
  - constructor.
  - now apply insert_floats_Qeq.
Qed.

(** X5: [is_valid_equation] holds exactly when the numeric literals of
    the token list are, in some order and up to numeric equality, the
    given numbers, each as often as it is given; operators play no
    part. *)
Theorem is_valid_equation_iff_same_numbers (ts : list TokenType)
  (numbers : list Z) :
  is_valid_equation ts numbers = true <->
  exists arrangement : list Z,
    Permutation arrangement numbers /\
    Forall2 Qeq (literals ts) (map inject_Z arrangement).
Proof.
  unfold is_valid_equation. rewrite floats_eq_ints_iff. split.
  - intros H.
    destruct (Permutation_Forall2 (sorted_perm Qlt_bool (literals ts)) H)
      as (ys & Hperm & Hys).
    apply Permutation_sym, Permutation_map_inv in Hperm as (l & -> & Hl).
    exists l. split; [| exact Hys].
    eapply perm_trans; [apply Permutation_sym, Hl |].
    apply (sorted_perm Z.ltb).
  - intros (l & Hperm & Hlits).
    apply sorted_floats_Qeq in Hlits.
    rewrite sorted_floats_inject_Z, (sorted_ints_perm _ _ Hperm) in Hlits.
    exact Hlits.
Qed.

(** The literals may come in any order and between any operators. *)
Example is_valid_equation_any_order :
  is_valid_equation [Num 6; Num 1; Op Sub; Num 4; Num 1; Op Mul; Op Div]
                    [1; 1; 4; 6]%Z = true /\
  is_valid_equation [Num 6; Num 4; Op Mul; Num 1; Op Mul] [1; 1; 4; 6]%Z = false /\
  is_valid_equation [Num 6; Num 4; Num 1; Num 1; Num 1] [1; 1; 4; 6]%Z = false.
Proof. repeat split. Qed.

(** ** The heuristic candidates *)

Lemma permutations_upto_nonempty {A : Type} (n : nat) :
  forall l : list A, List.length l = n -> permutations_upto n l <> [].
Proof.
  induction n as [| n IH]; intros l Hlen; simpl; [discriminate |].
  destruct l as [| x xs]; [discriminate |]. simpl.
  injection Hlen as Hlen. specialize (IH xs Hlen).
  destruct (permutations_upto n xs); [contradiction | discriminate].
Qed.

Lemma picks_In {A : Type} (l : list A) (x : A) :
  In x l -> exists rest, In (x, rest) (picks l).
Proof.
  induction l as [| y l IH]; simpl; [tauto |].
  intros [-> | H].
  - exists l. now left.
  - destruct (IH H) as (rest & Hrest). exists (y :: rest). right.
    apply in_map_iff. exists (x, rest). auto.
Qed.

Lemma picks_length {A : Type} (l : list A) (p : A * list A) :
  In p (picks l) -> S (List.length (snd p)) = List.length l.
Proof.
  intros H. apply picks_perm, Permutation_length in H. exact H.
Qed.

(** Every given number stands first in some permutation. *)
Lemma permutations_head {A : Type} (l : list A) (x : A) :
  In x l -> exists p, In (x :: p) (permutations l).
Proof.
  intros Hx. unfold permutations.
  destruct (picks_In l x Hx) as (rest & Hrest).
  pose proof (picks_length _ _ Hrest) as Hlen. simpl in Hlen.
  rewrite <- Hlen. simpl.
  pose proof (permutations_upto_nonempty (List.length rest) rest eq_refl) as Hne.
  destruct (permutations_upto (List.length rest) rest) as [| p ps] eqn:Hp;
    [contradiction |].
  exists p. apply in_flat_map. exists (x, rest). split; [exact Hrest |].
  simpl. rewrite Hp. now left.
Qed.

Lemma map_result_all_ok {A B : Type} (f : A -> result B) (l : list A) :
  (forall x, In x l -> exists y, f x = Ok y) ->
  exists ys, map_result f l = Ok ys.
Proof.
  induction l as [| x l IH]; intros H; simpl; [eauto |].
  destruct (H x (or_introl eq_refl)) as (y & ->).
  destruct IH as (ys & ->); [intros z Hz; apply H; now right |].
  simpl. eauto.
Qed.

Lemma map_result_some_raise {A B : Type} (f : A -> result B) (l : list A)
  (a : A) (x : exn) :
  In a l -> f a = Raise x -> exists x', map_result f l = Raise x'.
Proof.
  induction l as [| b l IH]; simpl; [tauto |]. intros [-> | Hin] Hf.
  - rewrite Hf. simpl. eauto.
  - destruct (f b) as [y | x']; simpl; [| eauto].
    destruct (IH Hin Hf) as (x' & ->). simpl. eauto.
Qed.

Lemma in_range_or_not (numbers : list Z) :
  Forall (fun n => in_float_range n = true) numbers \/
  Exists (fun n => in_float_range n = false) numbers.
Proof.
  induction numbers as [| n numbers [IH | IH]].
  - left. constructor.
  - destruct (in_float_range n) eqn:E.
    + left. now constructor.
    + right. now apply Exists_cons_hd.
  - right. now apply Exists_cons_tl.
Qed.

Lemma in_range_not_both (numbers : list Z) :
  Forall (fun n => in_float_range n = true) numbers ->
  Exists (fun n => in_float_range n = false) numbers -> False.
Proof.
  intros Hall Hex. apply Exists_exists in Hex as (n & Hin & Hn).
  rewrite Forall_forall in Hall. specialize (Hall n Hin). congruence.
Qed.

(** The element that the two loops build from a permutation and an
    operator triple. *)
Lemma heuristic_element_raise (numbers nums : list Z)
  (ops : OperatorType * OperatorType * OperatorType) (x : exn) :
  Permutation nums numbers ->
  (ts <- Heu.heuristic_tokens nums ops ;; Ok {| tokens := ts |}) = Raise x ->
  (x = OverflowError "int too large to convert to float" /\
   Exists (fun n => in_float_range n = false) numbers) \/
  (x = IndexError "tuple index out of range" /\
   (List.length numbers < 4)%nat /\
   Forall (fun n => in_float_range n = true) numbers).
Proof.
  intros Hperm H.
  apply bind_raise_inv in H as [H | (? & _ & H)]; [| discriminate].
  pose proof (heuristic_tokens_cases nums ops) as Hcases. rewrite H in Hcases.
  destruct Hcases as [(-> & Hex) | (-> & Hlen & Hall)].
  - left. split; [reflexivity |].
    apply Exists_exists in Hex as (n & Hin & Hn). apply Exists_exists.
    exists n. split; [| exact Hn].
    apply (Permutation_in _ Hperm).
    rewrite <- (firstn_skipn 4 nums). apply in_or_app. now left.
  - right. split; [reflexivity |].
    rewrite <- (Permutation_length Hperm). split; [exact Hlen |].
    exact (Permutation_Forall Hperm Hall).
Qed.

Lemma heuristic_product_perm (numbers nums : list Z)
  (ops : OperatorType * OperatorType * OperatorType) :
  In (nums, ops) (list_prod (permutations numbers) Heu.op_combos) ->
  Permutation nums numbers.
Proof.
  intros Hin. apply in_prod_iff in Hin as (Hnums & _).
  now apply permutations_upto_perm in Hnums.
Qed.

(** A number beyond the range of a float makes the generator raise the
    [OverflowError] of [float], whatever the other numbers are. *)
Lemma heuristic_overflow (numbers : list Z) :
  Exists (fun n => in_float_range n = false) numbers ->
  Heu.generate_heuristic_candidates numbers
  = Raise (OverflowError "int too large to convert to float").
Proof.
  intros Hex. pose proof Hex as Hex'.
  apply Exists_exists in Hex' as (n & Hin & Hn).
  destruct (permutations_head numbers n Hin) as (p & Hp).
  assert (Hfail : (ts <- Heu.heuristic_tokens (n :: p) (Add, Add, Add) ;;
                   Ok {| tokens := ts |})
                  = Raise (OverflowError "int too large to convert to float")).
  { apply in_float_range_false in Hn.
    unfold Heu.heuristic_tokens, tuple_item. simpl. now rewrite Hn. }
  assert (Hprod : In (n :: p, (Add, Add, Add))
                     (list_prod (permutations numbers) Heu.op_combos)).
  { apply in_prod; [exact Hp | now left]. }
  destruct (map_result_some_raise
              (fun q => ts <- Heu.heuristic_tokens (fst q) (snd q) ;;
                        Ok {| tokens := ts |})
              _ _ _ Hprod Hfail) as (x & Hx).
  unfold Heu.generate_heuristic_candidates. rewrite Hx. simpl.
  apply map_result_raise in Hx as ((nums & ops) & Hq & Hf). simpl in Hf.
  apply heuristic_product_perm in Hq.
  destruct (heuristic_element_raise _ _ _ _ Hq Hf) as [(-> & _) | (_ & _ & Hall)];
    [reflexivity |].
  destruct (in_range_not_both _ Hall Hex).
Qed.

Lemma heuristic_too_few (numbers : list Z) :
  Forall (fun n => in_float_range n = true) numbers ->
  (List.length numbers < 4)%nat ->
  Heu.generate_heuristic_candidates numbers
  = Raise (IndexError "tuple index out of range").
Proof.
  intros Hall Hlen.
  pose proof (permutations_upto_nonempty _ numbers eq_refl) as Hne.
  fold (permutations numbers) in Hne.
  destruct (permutations numbers) as [| p ps] eqn:Hp; [contradiction |].
  assert (Hperm : Permutation p numbers).
  { apply (permutations_upto_perm (List.length numbers)); [reflexivity |].
    fold (permutations numbers). rewrite Hp. now left. }
  assert (Hfirst : exists x,
             (ts <- Heu.heuristic_tokens p (Add, Add, Add) ;;
              Ok {| tokens := ts |}) = Raise x).
  { pose proof (heuristic_tokens_cases p (Add, Add, Add)) as Hcases.
    destruct (Heu.heuristic_tokens p (Add, Add, Add)) as [ts | x]; simpl; [| eauto].
    destruct Hcases as (Hfour & _).
    rewrite (Permutation_length Hperm) in Hfour. lia. }
  destruct Hfirst as (x & Hx).
  unfold Heu.generate_heuristic_candidates. rewrite Hp.
  change (list_prod (p :: ps) Heu.op_combos)
    with ((p, (Add, Add, Add))
          :: tl (list_prod (p :: ps) Heu.op_combos)).
  cbn [map_result fst snd]. rewrite Hx. simpl.
  destruct (heuristic_element_raise _ _ _ _ Hperm Hx) as [(_ & Hex) | (-> & _)];
    [| reflexivity].
  destruct (in_range_not_both _ Hall Hex).
Qed.

Lemma heuristic_enough (numbers : list Z) :
  Forall (fun n => in_float_range n = true) numbers ->
  (4 <= List.length numbers)%nat ->
  exists built : list Equation,
    map_result (fun p => ts <- Heu.heuristic_tokens (fst p) (snd p) ;;
                         Ok {| tokens := ts |})
               (list_prod (permutations numbers) Heu.op_combos) = Ok built /\
    Heu.generate_heuristic_candidates numbers
    = Ok (slice_to (filter Heu.near_target built) 10).
Proof.
  intros Hall Hlen.
  destruct (map_result_all_ok
              (fun p => ts <- Heu.heuristic_tokens (fst p) (snd p) ;;
                        Ok {| tokens := ts |})
              (list_prod (permutations numbers) Heu.op_combos))
    as (built & Hbuilt).
  { intros (nums & ops) Hin. apply heuristic_product_perm in Hin. simpl.
    destruct (ts <- Heu.heuristic_tokens nums ops ;; Ok {| tokens := ts |})
      as [eq | x] eqn:E; [eauto |].
    destruct (heuristic_element_raise _ _ _ _ Hin E)
      as [(_ & Hex) | (_ & Hfew & _)]; [| lia].
    destruct (in_range_not_both _ Hall Hex). }
  exists built. split; [exact Hbuilt |].
  unfold Heu.generate_heuristic_candidates. now rewrite Hbuilt.
Qed.

(** What makes the generator raise, and what it raises. *)
Lemma heuristic_raises (numbers : list Z) (x : exn) :
  Heu.generate_heuristic_candidates numbers = Raise x <->
  (Exists (fun n => in_float_range n = false) numbers /\
   x = OverflowError "int too large to convert to float") \/
  (Forall (fun n => in_float_range n = true) numbers /\
   (List.length numbers < 4)%nat /\
   x = IndexError "tuple index out of range").
Proof.
  split.
  - intros H. destruct (in_range_or_not numbers) as [Hall | Hex].
    + right. split; [exact Hall |].
      destruct (Nat.lt_ge_cases (List.length numbers) 4) as [Hlt | Hge].
      * rewrite (heuristic_too_few numbers Hall Hlt) in H.
        injection H as <-. auto.
      * destruct (heuristic_enough numbers Hall Hge) as (built & _ & Hok).
        rewrite Hok in H. discriminate.
    + left. split; [exact Hex |].
      rewrite (heuristic_overflow numbers Hex) in H. now injection H as <-.
  - intros [(Hex & ->) | (Hall & Hlen & ->)].
    + now apply heuristic_overflow.
    + now apply heuristic_too_few.
Qed.

(** X6: [generate_heuristic_candidates] raises the [OverflowError] of
    [float] when one of the numbers is beyond the range of a float.
    Otherwise it raises an [IndexError] when it is given fewer than four
    numbers, and given four or more it returns at most ten equations;
    each one combines the floats of four of the given numbers, taken at
    distinct positions, with three operators in the fixed shape
    [a b op c op d op], and its evaluation on floats raises nothing and
    gives a finite value strictly within 10 of 24. *)
Theorem generate_heuristic_candidates_shape (numbers : list Z) :
  (Exists (fun n => in_float_range n = false) numbers ->
   Heu.generate_heuristic_candidates numbers
   = Raise (OverflowError "int too large to convert to float")) /\
  (Forall (fun n => in_float_range n = true) numbers ->
   ((List.length numbers < 4)%nat ->
    Heu.generate_heuristic_candidates numbers
    = Raise (IndexError "tuple index out of range")) /\
   ((4 <= List.length numbers)%nat ->
    exists hs : list Equation,
      Heu.generate_heuristic_candidates numbers = Ok hs /\
      (List.length hs <= 10)%nat /\
      Forall (fun eq =>
                (exists n0 n1 n2 n3 rest v0 v1 v2 v3 o0 o1 o2,
                    Permutation (n0 :: n1 :: n2 :: n3 :: rest) numbers /\
                    float_of_int n0 = Ok v0 /\ float_of_int n1 = Ok v1 /\
                    float_of_int n2 = Ok v2 /\ float_of_int n3 = Ok v3 /\
                    tokens eq = [Num (inject_Z v0); Num (inject_Z v1); Op o0;
                                 Num (inject_Z v2); Op o1; Num (inject_Z v3);
                                 Op o2]) /\
                exists val : PrimFloat.float,
                  IEEE.compute (ieee_equation eq) = Ok val /\
                  IEEE.finite_near_24 val = true)
             hs)).
Proof.
  split; [apply heuristic_overflow |]. intros Hall.
  split; intros Hlen; [now apply heuristic_too_few |].
  destruct (heuristic_enough numbers Hall Hlen) as (built & Hbuilt & ->).
  eexists. split; [reflexivity |]. split.
  - rewrite slice_to_nonneg by lia.
    exact (firstn_le_length (Z.to_nat 10) _).
  - pose proof (heuristic_built _ _ Hbuilt) as Hshape.
    rewrite Forall_forall in Hshape. apply Forall_forall. intros eq Hin.
    apply slice_to_In, filter_In in Hin as (Hin & Hnear).
    split; [exact (Hshape eq Hin) |].
    unfold Heu.near_target in Hnear.
    destruct (IEEE.compute (ieee_equation eq)) as [val | e]; [| discriminate].
    exists val. split; [reflexivity | exact Hnear].
Qed.

(** On the numbers 1 5 7 10 the candidate 1 / 5 * 7 * 10 is kept: on
    floats its value is 14.000000000000002, within 10 of 24, where the
    exact value 14 is not. *)
Example heuristic_candidates_follow_float_rounding :
  let eq := {| tokens := [Num 1; Num 5; Op Div; Num 7; Op Mul; Num 10; Op Mul] |} in
  (exists hs, Heu.generate_heuristic_candidates [1; 5; 7; 10]%Z = Ok hs /\
              In eq hs) /\
  (exists v : Q, compute eq = Ok v /\ (v == 14)%Q) /\
  exists val : PrimFloat.float,
    IEEE.compute (ieee_equation eq) = Ok val /\
    PrimFloat.ltb (IEEE.of_Z 14) val = true /\
    IEEE.finite_near_24 val = true.
Proof.
  intros eq. split; [| split].
  - destruct (Heu.generate_heuristic_candidates [1; 5; 7; 10]%Z) as [hs | e]
      eqn:Hgen; [| vm_compute in Hgen; discriminate Hgen].
    exists hs. split; [reflexivity |].
    vm_compute in Hgen. injection Hgen as <-.
    do 6 right. now left.
  - eexists. split; [reflexivity |]. reflexivity.
  - eexists. split; [vm_compute; reflexivity |]. split; vm_compute; reflexivity.
Qed.

(** X7: on a problem of exactly four numbers, each of which a float
    holds exactly, as it holds every integer up to 2^53 in magnitude,
    every heuristic candidate passes [is_valid_equation]; on a problem of
    more than four numbers none does, since each candidate uses only four
    of them. *)
Theorem heuristic_candidates_validity (numbers : list Z) (hs : list Equation)
  (Hgen : Heu.generate_heuristic_candidates numbers = Ok hs) :
  (List.length numbers = 4%nat -> Forall exact_float numbers ->
   Forall (fun eq => is_valid_equation (tokens eq) numbers = true) hs) /\
  (Forall (fun n => (Z.abs n <= 2 ^ 53)%Z) numbers ->
   Forall exact_float numbers) /\
  ((4 < List.length numbers)%nat ->
   Forall (fun eq => is_valid_equation (tokens eq) numbers = false) hs).
Proof.
  split; [| split].
  - intros Hlen Hexact.
    exact (heuristic_candidates_valid numbers hs Hlen Hexact Hgen).
  - intros Hsmall. eapply Forall_impl; [| exact Hsmall].
    intros n Hn. now apply small_int_exact.
  - intros Hlen. unfold Heu.generate_heuristic_candidates in Hgen.
    apply bind_ok_inv in Hgen as (built & Hbuilt & Hgen). injection Hgen as <-.
    pose proof (heuristic_built _ _ Hbuilt) as Hshape.
    rewrite Forall_forall in Hshape. apply Forall_forall. intros eq Hin.
    apply slice_to_In, filter_In in Hin as (Hin & _).
    destruct (Hshape eq Hin)
      as (n0 & n1 & n2 & n3 & rest & v0 & v1 & v2 & v3 & o0 & o1 & o2
          & _ & _ & _ & _ & _ & Hts).
    destruct (is_valid_equation (tokens eq) numbers) eqn:Hvalid; [| reflexivity].
    unfold is_valid_equation in Hvalid. apply floats_eq_ints_iff in Hvalid.
    apply Forall2_length in Hvalid. rewrite length_map in Hvalid.
    pose proof (Permutation_length (sorted_perm Qlt_bool (literals (tokens eq))))
      as Hl1.
    pose proof (Permutation_length (sorted_perm Z.ltb numbers)) as Hl2.
    unfold sorted_floats, sorted_ints in Hvalid.
    rewrite Hl1, Hl2, Hts in Hvalid. simpl in Hvalid. lia.
Qed.

Lemma heuristic_candidates_validity_witness :
  exists hs : list Equation,
    Heu.generate_heuristic_candidates [1; 1; 4; 6]%Z = Ok hs /\
    hs <> [] /\
    Forall (fun eq => is_valid_equation (tokens eq) [1; 1; 4; 6]%Z = true) hs.
Proof.
  destruct (Heu.generate_heuristic_candidates [1; 1; 4; 6]%Z) as [hs | e]
    eqn:Hgen; [| vm_compute in Hgen; discriminate Hgen].
  exists hs. split; [reflexivity |]. split.
  - intros ->. vm_compute in Hgen. discriminate Hgen.
  - destruct (heuristic_candidates_validity [1; 1; 4; 6]%Z hs Hgen)
      as (Hfour & Hsmall & _).
    apply Hfour; [reflexivity |].
    apply Hsmall. repeat constructor; discriminate.
Defined.

(** Two numbers that [float] rounds: the heuristic candidates hold the
    rounded value 2^53 where the problem has 2^53 + 1, and none of the
    ten passes the operand check. *)
Example heuristic_candidates_of_rounded_numbers :
  let numbers := [2 ^ 53 + 1; 2 ^ 53 + 1; 24; 1]%Z in
  float_of_int (2 ^ 53 + 1) = Ok (2 ^ 53)%Z /\
  exists hs : list Equation,
    Heu.generate_heuristic_candidates numbers = Ok hs /\
    List.length hs = 10%nat /\
    forallb (fun eq => negb (is_valid_equation (tokens eq) numbers)) hs = true.
Proof.
  intros numbers. split; [reflexivity |].
  destruct (Heu.generate_heuristic_candidates numbers) as [hs | e] eqn:Hgen;
    [| vm_compute in Hgen; discriminate Hgen].
  exists hs. split; [reflexivity |].
  vm_compute in Hgen. injection Hgen as <-. split; reflexivity.
Qed.

(** ** When the expansion step raises *)

(** X8: in the heuristic notebook [expand] raises in three situations
    only, none of which involves the proposal source: the problem string
    does not parse; or the state has no seed and one of the numbers is
    beyond the range of a float, which gives the [OverflowError] of
    [float]; or the state has no seed, every number is within the range,
    and the problem has fewer than four numbers, which gives the
    [IndexError]. *)
Theorem heu_expand_raises_iff (repr_float : Q -> string)
  (invoke : Request -> Submission) (state : ExpansionState)
  (config : RunnableConfig) (x : exn) :
  Heu.expand repr_float invoke state config = Raise x <->
  problem_numbers_of (problem (base state)) = Raise x \/
  exists numbers : list Z,
    problem_numbers_of (problem (base state)) = Ok numbers /\
    seed state = None /\
    ((Exists (fun n => in_float_range n = false) numbers /\
      x = OverflowError "int too large to convert to float") \/
     (Forall (fun n => in_float_range n = true) numbers /\
      (List.length numbers < 4)%nat /\
      x = IndexError "tuple index out of range")).
Proof.
  unfold Heu.expand, Heu.expand_request. split.
  - intros H.
    apply bind_raise_inv in H as [H | (((ns & held) & request) & _ & H)];
      [| discriminate].
    apply bind_raise_inv in H as [H | (numbers & Hparse & H)]; [now left |].
    right. exists numbers.
    apply bind_raise_inv in H as [H | (? & _ & H)]; [| discriminate].
    destruct (seed state); [discriminate |].
    apply bind_raise_inv in H as [H | (? & _ & H)]; [| discriminate].
    apply heuristic_raises in H. auto.
  - intros [H | (numbers & Hparse & Hseed & Hcases)].
    + now rewrite H.
    + apply heuristic_raises in Hcases.
      rewrite Hparse, Hseed. simpl. now rewrite Hcases.
Qed.

(** A three-number problem breaks the first round, and only the first;
    a number of 400 digits breaks it with the error of [float]. *)
Example heu_expand_three_numbers :
  Heu.expand (fun _ => "") (fun _ => Returns {| reasoning := ""; equations := [] |})
             (no_seed (initial_state "1 2 3")) Heu.batch_config
  = Raise (IndexError "tuple index out of range") /\
  Heu.expand (fun _ => "") (fun _ => Returns {| reasoning := ""; equations := [] |})
             (with_seed (initial_state "1 2 3")
                        (fresh {| tokens := [Num 1] |})) Heu.batch_config
  = Ok (only_candidates []) /\
  Heu.generate_heuristic_candidates [10 ^ 400; 1; 2]%Z
  = Raise (OverflowError "int too large to convert to float").
Proof. repeat split; reflexivity. Qed.

(** X9: in the chain-of-thought notebook [expand] raises exactly when the
    proposal source returns [None]; a submission becomes one candidate
    per proposed equation, in order, with no operand check, and a
    proposal that does not use the problem numbers is scored 0 with the
    operand-mismatch feedback by [compute_score]. *)
Theorem cot_expand_keeps_every_proposal (repr_float : Q -> string)
  (invoke : Request -> Submission) (state : ExpansionState)
  (config : RunnableConfig) :
  ((exists x : exn, CoT.expand repr_float invoke state config = Raise x) <->
   invoke (CoT.expand_request repr_float state config) = ReturnsNone) /\
  (forall g : GuessEquations,
      invoke (CoT.expand_request repr_float state config) = Returns g ->
      CoT.expand repr_float invoke state config
      = Ok (only_candidates (map fresh (equations g))) /\
      forall (eq : Equation) (numbers : list Z),
        In eq (equations g) ->
        problem_numbers_of (problem (base state)) = Ok numbers ->
        is_valid_equation (tokens eq) numbers = false ->
        In (fresh eq) (map fresh (equations g)) /\
        compute_score repr_float (problem (base state)) (fresh eq)
        = Ok {| Scored.candidate := eq; Scored.score := 0;
                Scored.feedback := mismatch_feedback |}).
Proof.
  unfold CoT.expand. split.
  - destruct (invoke _) as [e | | g].
    + split; [intros (x & H); discriminate H | discriminate].
    + split; [reflexivity | eauto].
    + split; [intros (x & H); discriminate H | discriminate].
  - intros g ->. split; [reflexivity |].
    intros eq numbers Hin Hparse Hbad. split; [now apply in_map |].
    unfold compute_score, is_valid_equation in *. rewrite Hparse. simpl.
    now rewrite Hbad.
Qed.

(** ** One round: scoring and pruning together *)

Lemma map_result_Forall2 {A B : Type} (f : A -> result B) (l : list A) :
  forall ys, map_result f l = Ok ys -> Forall2 (fun x y => f x = Ok y) l ys.
Proof.
  induction l as [| x l IH]; simpl; intros ys H.
  - injection H as <-. constructor.
  - apply bind_ok_inv in H as (y & Hy & H).
    apply bind_ok_inv in H as (ys' & Hys' & H). injection H as <-.
    constructor; [exact Hy | exact (IH ys' Hys')].
Qed.

(** X10: [score] followed by [prune] replaces the frontier instead of
    extending it.  Every candidate held before is scored anew, one scored
    candidate per candidate and for the same equation; the new frontier
    is the beam cut from all scored candidates, nothing else stays in
    [candidates], [scored_candidates] is empty, the depth has grown by 1
    and the problem is unchanged. *)
Theorem score_then_prune_replaces_frontier (repr_float : Q -> string)
  (default_max_depth : Z) (state : ToTState) (config : RunnableConfig)
  (u : Update) (Hscore : score repr_float state = Ok u) :
  let scored_state := apply_update state u in
  let state' :=
    apply_update scored_state (prune default_max_depth scored_state config) in
  exists scored : list ScoredCandidate,
    Forall2 (fun c sc => compute_score repr_float (problem state) c = Ok sc /\
                         Scored.candidate sc = Cand.candidate c)
            (candidates state) scored /\
    candidates state' =
      map upcast
          (slice_to (sorted_by_score_desc (scored_candidates state ++ scored)%list)
                    (beam_size (_ensure_configurable default_max_depth config))) /\
    scored_candidates state' = [] /\
    depth state' = (depth state + 1)%Z /\
    problem state' = problem state.
Proof.
  unfold score in Hscore.
  apply bind_ok_inv in Hscore as (scored & Hscored & Hu). injection Hu as <-.
  exists scored. simpl. repeat split.
  apply map_result_Forall2 in Hscored.
  eapply Forall2_impl; [| exact Hscored].
  intros c sc Hc. split; [exact Hc |].
  exact (compute_score_keeps_equation _ _ _ _ Hc).
Qed.

Lemma score_then_prune_replaces_frontier_witness :
  let c (x : Q) : Candidate := fresh {| tokens := [Num x; Num 1; Op Add] |} in
  let state := {| problem := "1 23"; candidates := [c 2; c 23; c 5];
                  scored_candidates := []; depth := 3%Z |} in
  let config := {| configurable :=
                     Some {| get_max_depth := None; get_threshold := None;
                             get_k := None; get_beam_size := Some 1%Z |};
                   top_threshold := None; recursion_limit := None |} in
  exists u : Update,
    score (fun _ => "") state = Ok u /\
    exists scored : list ScoredCandidate,
      List.length scored = 3%nat /\
      candidates (apply_update (apply_update state u)
                               (prune 10 (apply_update state u) config))
      = map upcast (slice_to (sorted_by_score_desc scored) 1).
Proof.
  intros c state config.
  destruct (score (fun _ => "") state) as [u | e] eqn:Hscore;
    [| vm_compute in Hscore; discriminate Hscore].
  exists u. split; [reflexivity |].
  destruct (score_then_prune_replaces_frontier (fun _ => "") 10 state config u
                                               Hscore)
    as (scored & Hall & Hfrontier & _).
  exists scored. split.
  - apply Forall2_length in Hall. simpl in Hall. now symmetry.
  - exact Hfrontier.
Defined.

(** ** The frontier after pruning *)








(** ** The termination check *)

Lemma heu_should_terminate_raises (state : ToTState) (config : RunnableConfig) :
  (exists x : exn, Heu.should_terminate state config = Raise x) <->
  exists c0 rest, candidates state = c0 :: rest /\ Cand.score c0 = None.
Proof.
  unfold Heu.should_terminate, score_at_least.
  destruct (candidates state) as [| c0 rest].
  - split; [intros (x & H); discriminate H |].
    intros (c & r & H & _). discriminate H.
  - destruct (Cand.score c0) as [s |] eqn:Hs; simpl.
    + split; [| intros (c & r & [= <- <-] & H); congruence].
      intros (x & H). destruct (_ || _); discriminate H.
    + split; [eauto | eauto].
Qed.

Lemma cot_should_terminate_raises (state : ToTState) (config : RunnableConfig) :
  (exists x : exn, CoT.should_terminate state config = Raise x) <->
  candidates state = [] \/
  exists c0 rest, candidates state = c0 :: rest /\ Cand.score c0 = None.
Proof.
  unfold CoT.should_terminate, score_at_least.
  destruct (candidates state) as [| c0 rest].
  - split; [auto | eauto].
  - destruct (Cand.score c0) as [s |] eqn:Hs; simpl.
    + split.
      * intros (x & H). destruct (_ || _); discriminate H.
      * intros [H | (c & r & [= <- <-] & H)]; [discriminate H | congruence].
    + split; [intros _; right; eauto | eauto].
Qed.

(** X12: what makes [should_terminate] raise, and what it sends.  The
    heuristic notebook's check raises exactly when the first frontier
    member has no score; the chain-of-thought notebook's check raises in
    that case and also on an empty frontier.  When either check continues
    the search it sends one expansion per frontier member, at least one,
    each carrying the whole state. *)
Theorem should_terminate_raises_iff (state : ToTState) (config : RunnableConfig) :
  ((exists x : exn, Heu.should_terminate state config = Raise x) <->
   exists c0 rest, candidates state = c0 :: rest /\ Cand.score c0 = None) /\
  ((exists x : exn, CoT.should_terminate state config = Raise x) <->
   candidates state = [] \/
   exists c0 rest, candidates state = c0 :: rest /\ Cand.score c0 = None) /\
  (forall payloads : list ExpansionState,
      Heu.should_terminate state config = Ok (Sends payloads) \/
      CoT.should_terminate state config = Ok (Sends payloads) ->
      payloads <> [] /\
      List.length payloads = List.length (candidates state) /\
      Forall (fun p => base p = state) payloads).
Proof.
  split; [apply heu_should_terminate_raises |
          split; [apply cot_should_terminate_raises |]].
  intros payloads [H | H].
  - pose proof H as Hne. apply heu_should_terminate_sends in H as ->.
    unfold Heu.should_terminate in Hne.
    destruct (candidates state) as [| c0 rest]; [discriminate |].
    split; [discriminate |]. split; [apply length_map |].
    apply Forall_map, Forall_forall. reflexivity.
  - pose proof H as Hne. apply cot_should_terminate_sends in H as ->.
    unfold CoT.should_terminate in Hne.
    destruct (candidates state) as [| c0 rest]; [discriminate |].
    split; [discriminate |]. split; [apply length_map |].
    apply Forall_map, Forall_forall. reflexivity.
Qed.

(** X13: the check applied to what [prune] leaves, as the graph does
    after every round (no candidates are held when [prune] runs).  With a
    positive beam size the heuristic notebook's check never raises, and
    the chain-of-thought notebook's check raises exactly when the round
    scored no candidate at all. *)
Theorem should_terminate_after_prune (state : ToTState) (config : RunnableConfig)
  (Hheld : candidates state = [])
  (Hheu : (0 < beam_size (_ensure_configurable Heu.default_max_depth config))%Z) :
  (exists r : Route,
      Heu.should_terminate
        (apply_update state (prune Heu.default_max_depth state config)) config
      = Ok r) /\
  ((exists x : exn,
       CoT.should_terminate
         (apply_update state (prune CoT.default_max_depth state config)) config
       = Raise x) <->
   scored_candidates state = []).
Proof.
  assert (Hcot : (0 < beam_size (_ensure_configurable CoT.default_max_depth config))%Z)
    by exact Hheu.
  split.
  - unfold Heu.should_terminate, score_at_least, apply_update, prune.
    rewrite Hheld. simpl.
    destruct (map upcast _) as [| c0 rest] eqn:Hmap; [eauto |].
    destruct (slice_to _ _) as [| sc scs]; [discriminate |].
    simpl in Hmap. injection Hmap as <- _. simpl.
    destruct (_ || _); eauto.
  - rewrite cot_should_terminate_raises.
    unfold apply_update, prune. rewrite Hheld. simpl. simpl in Hcot.
    rewrite slice_to_nonneg by lia.
    destruct (Z.to_nat _) as [| k] eqn:Hk; [lia |].
    pose proof (sorted_by_score_desc_perm (scored_candidates state)) as Hp.
    destruct (sorted_by_score_desc (scored_candidates state)) as [| sc scs].
    + apply Permutation_nil in Hp. rewrite Hp. simpl. tauto.
    + simpl. split.
      * intros [H | (c0 & rest & [= <- _] & H)]; discriminate H.
      * intros H. rewrite H in Hp. apply Permutation_sym, Permutation_nil in Hp.
        discriminate Hp.
Qed.

Lemma should_terminate_after_prune_witness :
  let state := {| problem := "1 1 4 6"; candidates := [];
                  scored_candidates := []; depth := 0%Z |} in
  (exists r : Route,
      Heu.should_terminate
        (apply_update state (prune Heu.default_max_depth state Heu.batch_config))
        Heu.batch_config = Ok r) /\
  exists x : exn,
    CoT.should_terminate
      (apply_update state (prune CoT.default_max_depth state Heu.batch_config))
      Heu.batch_config = Raise x.
Proof.
  intro state.
  assert (Hbeam : (0 < beam_size (_ensure_configurable Heu.default_max_depth
                                                        Heu.batch_config))%Z)
    by reflexivity.
  destruct (should_terminate_after_prune state Heu.batch_config eq_refl Hbeam)
    as (Hheu & Hcot).
  split; [exact Hheu | apply Hcot; reflexivity].
Defined.

(** ** A whole run *)

Section RunFacts.
Variable repr_float : Q -> string.
Variable default_max_depth : Z.
Variable expand :
  (Request -> Submission) -> ExpansionState -> RunnableConfig -> result Update.
Variable should_terminate : ToTState -> RunnableConfig -> result Route.
Variable solver : nat -> Request -> Submission.
Variable config : RunnableConfig.


Hypothesis expand_keeps_depth :
  forall invoke state u, expand invoke state config = Ok u -> upd_depth u = None.
Hypothesis continue_below_budget :
  forall state payloads,
    should_terminate state config = Ok (Sends payloads) ->
    (depth state < max_depth (_ensure_configurable default_max_depth config))%Z.

Lemma expand_all_keeps_depth (inputs : list ExpansionState) :
  forall (n : nat) (us : list Update) (state : ToTState),
    expand_all expand solver n inputs config = Ok us ->
    depth (fold_left apply_update us state) = depth state.
Proof.
  induction inputs as [| i inputs IH]; intros n us state H; simpl in H.
  - now injection H as <-.
  - apply bind_ok_inv in H as (u & Hu & H).
    apply bind_ok_inv in H as (us' & Hus' & H). injection H as <-. simpl.
    rewrite (IH _ _ _ Hus'). simpl.
    now rewrite (expand_keeps_depth _ _ _ Hu).
Qed.

Lemma run_steps_depth_bound (limit : nat) :
  forall (p : Pending) (state final : ToTState) (n : nat),
    run_steps repr_float default_max_depth expand should_terminate solver
              limit config p state n = Ok final ->
    (0 <= depth state
     < Z.max 1 (max_depth (_ensure_configurable default_max_depth config)))%Z ->
    (1 <= depth final
     <= Z.max 1 (max_depth (_ensure_configurable default_max_depth config)))%Z.
Proof.
  induction limit as [| limit IH]; intros p state final n H Hdepth;
    simpl in H; [discriminate |].
  apply bind_ok_inv in H as (((state' & n') & next) & Hstep & H).
  destruct p as [inputs | |]; simpl in Hstep.
  - apply bind_ok_inv in Hstep as (us & Hus & Hstep).
    injection Hstep as <- <- <-.
    apply IH in H; [exact H |]. now rewrite (expand_all_keeps_depth _ _ _ _ Hus).
  - apply bind_ok_inv in Hstep as (u & Hu & Hstep). injection Hstep as <- <- <-.
    apply IH in H; [exact H |].
    unfold score in Hu. apply bind_ok_inv in Hu as (scored & _ & Hu).
    now injection Hu as <-.
  - apply bind_ok_inv in Hstep as (r & Hr & Hstep).
    destruct r as [| payloads]; injection Hstep as <- <- <-.
    + injection H as <-. unfold apply_update, prune. cbn [depth upd_depth]. lia.
    + apply continue_below_budget in Hr as Hbelow.
      apply IH in H; [exact H |].
      unfold apply_update, prune in *. cbn [depth upd_depth] in *. lia.
Qed.
End RunFacts.



Lemma heu_expand_keeps_depth (repr_float : Q -> string)
  (invoke : Request -> Submission) (state : ExpansionState)
  (config : RunnableConfig) (u : Update) :
  Heu.expand repr_float invoke state config = Ok u -> upd_depth u = None.
Proof.
  unfold Heu.expand. intros H.
  apply bind_ok_inv in H as (((ns & held) & request) & _ & H).
  now injection H as <-.
Qed.

Lemma cot_expand_keeps_depth (repr_float : Q -> string)
  (invoke : Request -> Submission) (state : ExpansionState)
  (config : RunnableConfig) (u : Update) :
  CoT.expand repr_float invoke state config = Ok u -> upd_depth u = None.
Proof.
  unfold CoT.expand. destruct (invoke _); intros H; try discriminate;
    now injection H as <-.
Qed.

Lemma continue_below_budget_both (state : ToTState) (config : RunnableConfig)
  (payloads : list ExpansionState) :
  (Heu.should_terminate state config = Ok (Sends payloads) ->
   (depth state < max_depth (_ensure_configurable Heu.default_max_depth config))%Z) /\
  (CoT.should_terminate state config = Ok (Sends payloads) ->
   (depth state < max_depth (_ensure_configurable CoT.default_max_depth config))%Z).
Proof.
  unfold Heu.should_terminate, CoT.should_terminate.
  split; intros H; destruct (candidates state) as [| c0 rest];
    try discriminate; apply bind_ok_inv in H as (solved & _ & H);
    destruct solved; simpl in H; try discriminate;
    match type of H with
    | (if ?b then _ else _) = _ => destruct b eqn:Hb; [discriminate |]
    end; apply Z.leb_gt in Hb; exact Hb.
Qed.

(** X15: a run of either notebook that ends has completed at least one
    round and at most [max_depth] rounds (one round when [max_depth] is
    smaller than 1): the final depth lies between 1 and
    max(1, max_depth). *)
Theorem final_depth_within_budget (repr_float : Q -> string)
  (solver : nat -> Request -> Submission) (problem : string)
  (config : RunnableConfig) (final : ToTState) :
  (Heu.run_graph repr_float solver problem config = Ok final ->
   (1 <= depth final
    <= Z.max 1 (max_depth (_ensure_configurable Heu.default_max_depth config)))%Z) /\
  (CoT.run_graph repr_float solver problem config = Ok final ->
   (1 <= depth final
    <= Z.max 1 (max_depth (_ensure_configurable CoT.default_max_depth config)))%Z).
Proof.
  split; intros Hrun.
  - unfold Heu.run_graph, run_graph in Hrun.
    eapply run_steps_depth_bound in Hrun; [exact Hrun | | | simpl; lia].
    + intros invoke state u. apply heu_expand_keeps_depth.
    + intros state payloads. apply continue_below_budget_both.
  - unfold CoT.run_graph, run_graph in Hrun.
    eapply run_steps_depth_bound in Hrun; [exact Hrun | | | simpl; lia].
    + intros invoke state u. apply cot_expand_keeps_depth.
    + intros state payloads. apply continue_below_budget_both.
Qed.

(** With [max_depth] 0 a run ends after its first round, whatever the
    scores are. *)
Example max_depth_zero_single_round :
  let solver := fun (_ : nat) (_ : Request) =>
    Returns {| reasoning := "";
               equations := [{| tokens := [Num 1; Num 1; Op Add; Num 4; Op Add;
                                           Num 6; Op Add] |}] |} in
  exists final : ToTState,
    Heu.run_graph (fun _ => "") solver "1 1 4 6"
                  {| configurable :=
                       Some {| get_max_depth := Some 0%Z; get_threshold := None;
                               get_k := None; get_beam_size := None |};
                     top_threshold := None; recursion_limit := None |}
    = Ok final /\ depth final = 1%Z.
Proof.
  intros solver. eexists. split; [vm_compute; reflexivity | reflexivity].
Qed.

(** ** The batch runner *)

Lemma collect_results_length (run : nat -> string -> result Res.RunResult)
  (error_depth : Z) (puzzles : list string) :
  forall i : nat,
    List.length (collect_results run error_depth i puzzles)
    = List.length puzzles.
Proof.
  induction puzzles as [| puzzle puzzles IH]; intros i; simpl;
    [reflexivity | now rewrite IH].
Qed.

Lemma collect_results_nth (run : nat -> string -> result Res.RunResult)
  (error_depth : Z) (puzzles : list string) :
  forall (i k : nat) (puzzle : string),
    nth_error puzzles k = Some puzzle ->
    nth_error (collect_results run error_depth i puzzles) k
    = Some match run (i + k)%nat puzzle with
           | Ok r => r
           | Raise e =>
               {| Res.solved := false; Res.depth := error_depth;
                  Res.best_score := 0; Res.equation := "ERROR";
                  Res.feedback := Some (str_exn e) |}
           end.
Proof.
  induction puzzles as [| p puzzles IH]; intros i k puzzle H.
  - destruct k; discriminate H.
  - destruct k as [| k]; simpl in H |- *.
    + injection H as ->. now rewrite Nat.add_0_r.
    + rewrite (IH (S i) k puzzle H). now rewrite Nat.add_succ_r.
Qed.

(** X16: [run_tot_on_many_problems] never raises and returns exactly one
    result for each of the first [limit] puzzles, in their order.  The
    result of a puzzle whose run raised is an unsolved entry with score
    0, the text "ERROR" for the equation and the message of the
    exception as feedback; its depth is -1 in the heuristic notebook and
    0 in the chain-of-thought notebook. *)
Theorem run_tot_on_many_problems_one_result_each (repr_float : Q -> string)
  (solvers : nat -> nat -> Request -> Submission) (puzzles : list string)
  (limit : Z) (Hlimit : (0 <= limit)%Z) :
  List.length (Heu.run_tot_on_many_problems repr_float solvers puzzles limit)
  = Nat.min (Z.to_nat limit) (List.length puzzles) /\
  List.length (CoT.run_tot_on_many_problems repr_float solvers puzzles limit)
  = Nat.min (Z.to_nat limit) (List.length puzzles) /\
  forall (k : nat) (puzzle : string),
    (k < Z.to_nat limit)%nat -> nth_error puzzles k = Some puzzle ->
    nth_error (Heu.run_tot_on_many_problems repr_float solvers puzzles limit) k
    = Some match Heu.run_tot_on_problem repr_float (solvers k) puzzle
                                        Heu.batch_config with
           | Ok r => r
           | Raise e =>
               {| Res.solved := false; Res.depth := (-1)%Z;
                  Res.best_score := 0; Res.equation := "ERROR";
                  Res.feedback := Some (str_exn e) |}
           end /\
    nth_error (CoT.run_tot_on_many_problems repr_float solvers puzzles limit) k
    = Some match CoT.run_tot_on_problem repr_float (solvers k) puzzle
                                        CoT.batch_config with
           | Ok r => r
           | Raise e =>
               {| Res.solved := false; Res.depth := 0%Z;
                  Res.best_score := 0; Res.equation := "ERROR";
                  Res.feedback := Some (str_exn e) |}
           end.
Proof.
  unfold Heu.run_tot_on_many_problems, CoT.run_tot_on_many_problems.
  rewrite !collect_results_length, (slice_to_nonneg _ _ Hlimit), length_firstn.
  split; [reflexivity | split; [reflexivity |]].
  intros k puzzle Hk Hnth.
  assert (Hfirst : nth_error (firstn (Z.to_nat limit) puzzles) k = Some puzzle).
  { rewrite nth_error_firstn. apply Nat.ltb_lt in Hk. now rewrite Hk. }
  split; now rewrite (collect_results_nth _ _ _ 0 k puzzle Hfirst).
Qed.

Lemma run_tot_on_many_problems_one_result_each_witness :
  let solvers := fun (i : nat) (_ : nat) (_ : Request) =>
    match i with
    | O => Returns {| reasoning := ""; equations := [] |}
    | _ => Returns {| reasoning := "";
                      equations := [{| tokens := [Num 6; Num 4; Op Mul;
                                                  Num 1; Op Mul; Num 1;
                                                  Op Mul] |}] |}
    end in
  List.length (Heu.run_tot_on_many_problems (fun _ => "") solvers
                 ["1 1 2 6"; "1 1 4 6"; "1 1 1 8"] 2) = 2%nat.
Proof.
  intro solvers.
  destruct (run_tot_on_many_problems_one_result_each
              (fun _ => "") solvers ["1 1 2 6"; "1 1 4 6"; "1 1 1 8"] 2)
    as (Hlen & _).
  - discriminate.
  - exact Hlen.
Defined.

(** ** The evaluation of a batch *)

Lemma round_half_even_bounds (x : Q) :
  (Qfloor x <= round_half_even x <= Qfloor x + 1)%Z.
Proof.
  unfold round_half_even.
  destruct (Qcompare _ _); [destruct (Z.even _) | |]; lia.
Qed.

Lemma round_half_even_mono (x y : Q) :
  (x <= y)%Q -> (round_half_even x <= round_half_even y)%Z.
Proof.
  intros Hxy. pose proof (Qfloor_resp_le x y Hxy) as Hfloor.
  destruct (Z.eq_dec (Qfloor x) (Qfloor y)) as [Heq | Hne].
  - unfold round_half_even. rewrite Heq.
    destruct (Qcompare_spec (x - inject_Z (Qfloor y)) (1 # 2)) as [Hx | Hx | Hx],
             (Qcompare_spec (y - inject_Z (Qfloor y)) (1 # 2)) as [Hy | Hy | Hy];
      try (destruct (Z.even (Qfloor y)); lia); exfalso; lra.
  - pose proof (round_half_even_bounds x). pose proof (round_half_even_bounds y).
    lia.
Qed.

Lemma power_of_ten_pos (n : nat) : (0 < inject_Z (10 ^ Z.of_nat n))%Q.
Proof.
  change 0%Q with (inject_Z 0). rewrite <- Zlt_Qlt.
  apply Z.pow_pos_nonneg; lia.
Qed.

(** Rounding keeps the order. *)
Lemma round_mono (x y : Q) (ndigits : nat) :
  (x <= y)%Q -> (round x ndigits <= round y ndigits)%Q.
Proof.
  intros Hxy. unfold round.
  pose proof (power_of_ten_pos ndigits) as Hpos.
  apply Qmult_le_compat_r.
  - rewrite <- Zle_Qle. apply round_half_even_mono.
    apply Qmult_le_compat_r; [exact Hxy | now apply Qlt_le_weak].
  - apply Qinv_le_0_compat. now apply Qlt_le_weak.
Qed.

Lemma fold_left_Qplus_shift (xs : list Q) :
  forall a : Q, (fold_left Qplus xs a == a + fold_left Qplus xs 0)%Q.
Proof.
  induction xs as [| x xs IH]; intros a; simpl.
  - ring.
  - rewrite (IH (a + x)%Q), (IH (0 + x)%Q). ring.
Qed.

Lemma sum_floats_cons (x : Q) (xs : list Q) :
  (sum_floats (x :: xs) == x + sum_floats xs)%Q.
Proof.
  unfold sum_floats. simpl. rewrite fold_left_Qplus_shift. ring.
Qed.


Lemma sum_floats_nonneg (xs : list Q) :
  Forall (fun x => (0 <= x)%Q) xs -> (0 <= sum_floats xs)%Q.
Proof.
  induction 1 as [| x xs Hx _ IH].
  - change (0 <= 0)%Q. lra.
  - rewrite sum_floats_cons. lra.
Qed.



Lemma true_divide_fraction (solved total : Z) :
  (0 <= solved <= total)%Z -> (0 < total)%Z ->
  exists a : Q,
    true_divide solved total = Ok a /\
    (a * inject_Z total == inject_Z solved)%Q /\ (0 <= a)%Q /\ (a <= 1)%Q.
Proof.
  intros Hs Ht. unfold true_divide.
  destruct (Z.eqb_spec total 0) as [-> | _]; [lia |].
  assert (Hpos : (0 < inject_Z total)%Q).
  { change 0%Q with (inject_Z 0). now rewrite <- Zlt_Qlt. }
  eexists. split; [reflexivity |]. split; [| split].
  - field. lra.
  - apply Qle_shift_div_l; [exact Hpos |]. rewrite Qmult_0_l.
    change 0%Q with (inject_Z 0). rewrite <- Zle_Qle. lia.
  - apply Qle_shift_div_r; [exact Hpos |]. rewrite Qmult_1_l.
    rewrite <- Zle_Qle. lia.
Qed.


(** X18: the second definition of [evaluate_tot_llm_performance], the
    one in force when the metrics are computed, raises on an empty list
    of results (the error of [max]).  On a non-empty list it counts all
    results and the solved ones and lists the equations of the solved
    results in their order; the accuracy it reports lies between 0 and 1;
    and the average depth is never negative, since results of negative
    depth (the error entries of the heuristic notebook) are left out of
    the sum. *)
Theorem evaluation_second_definition (results : list Res.RunResult) :
  (results = [] ->
   Performance.evaluate_tot_llm_performance results
   = Raise (ValueError "max() iterable argument is empty")) /\
  (results <> [] ->
   exists m : Metrics,
     Performance.evaluate_tot_llm_performance results = Ok m /\
     total_problems m = Z.of_nat (List.length results) /\
     solved_equations m = map Res.equation (filter Res.solved results) /\
     solved_problems m = Z.of_nat (List.length (solved_equations m)) /\
     (0 <= solved_problems m <= total_problems m)%Z /\
     (0 <= accuracy m)%Q /\ (accuracy m <= 1)%Q /\
     (0 <= average_depth m)%Q).
Proof.
  split; [intros ->; reflexivity |].
  intros Hne. destruct results as [| r results]; [contradiction |].
  unfold Performance.evaluate_tot_llm_performance.
  set (all := r :: results).
  assert (Hcount : (0 <= Z.of_nat (List.length (filter Res.solved all))
                    <= Z.of_nat (List.length all))%Z).
  { pose proof (filter_length_le Res.solved all). lia. }
  assert (Htotal : (0 < Z.of_nat (List.length all))%Z)
    by (subst all; simpl List.length; lia).
  destruct (true_divide_fraction _ _ Hcount Htotal) as (a & Ha & Hfrac & H0 & H1).
  assert (Hmax : Z.max 1 (Z.of_nat (List.length all)) = Z.of_nat (List.length all))
    by lia.
  rewrite Hmax, Ha.
  change (max_float (map Res.best_score all))
    with (Ok (max_float_from (Res.best_score r) (map Res.best_score results))).
  cbn [bind].
  eexists. split; [reflexivity |]. cbn [total_problems solved_equations
    solved_problems accuracy average_depth average_best_score highest_score].
  rewrite length_map.
  assert (Hpos : (0 < inject_Z (Z.of_nat (List.length all)))%Q).
  { change 0%Q with (inject_Z 0). now rewrite <- Zlt_Qlt. }
  repeat split; try apply Hcount.
  - apply Qle_trans with (y := round 0 3); [vm_compute; discriminate |].
    now apply round_mono.
  - apply Qle_trans with (y := round 1 3); [| vm_compute; discriminate].
    now apply round_mono.
  - apply Qle_trans with (y := round 0 2); [vm_compute; discriminate |].
    apply round_mono.
    apply Qle_shift_div_l; [exact Hpos |]. rewrite Qmult_0_l.
    apply sum_floats_nonneg, Forall_map, Forall_forall.
    intros x Hx. apply filter_In in Hx as (_ & Hx). apply Z.leb_le in Hx.
    change 0%Q with (inject_Z 0). now rewrite <- Zle_Qle.
Qed.

(** A batch of one solved run, one unsolved run and one error entry of
    the heuristic notebook: the two definitions differ in the accuracy
    (exact or rounded) and in the average depth (2.67 or 3.0). *)
Example evaluation_example :
  let entry (s : bool) (d : Z) (b : Q) (e : string) : Res.RunResult :=
    {| Res.solved := s; Res.depth := d; Res.best_score := b;
       Res.equation := e; Res.feedback := None |} in
  let results := [entry true 1%Z 1%Q "a"; entry false 8%Z (1 # 3)%Q "b";
                  entry false (-1)%Z 0%Q "ERROR"] in
  exists m1 m2 : Metrics,
    Evaluation.evaluate_tot_llm_performance results = Ok m1 /\
    Performance.evaluate_tot_llm_performance results = Ok m2 /\
    total_problems m1 = 3%Z /\ solved_problems m1 = 1%Z /\
    solved_equations m1 = ["a"] /\
    (accuracy m1 == 1 # 3)%Q /\ (accuracy m2 == 333 # 1000)%Q /\
    (average_depth m1 == 267 # 100)%Q /\ (average_depth m2 == 3)%Q /\
    (average_best_score m1 == 444 # 1000)%Q /\ (highest_score m2 == 1)%Q.
Proof.
  intros entry results. eexists. eexists.
  split; [vm_compute; reflexivity |]. split; [vm_compute; reflexivity |].
  repeat split.
Qed.

(** ** The seed in the heuristic notebook *)

(** X19: in the heuristic notebook a search that continues sends one
    expansion per frontier member, with that member under the key
    "seed"; the request [expand] builds for it is the hint prefix
    followed by [str(seed)], and so contains the rendering of the seed's
    tokens and of its score. *)
Theorem heu_fan_out_carries_seed (repr_float : Q -> string) (state : ToTState)
  (config : RunnableConfig) (payloads : list ExpansionState)
  (Hroute : Heu.should_terminate state config = Ok (Sends payloads)) :
  Forall2 (fun c p =>
             base p = state /\ seed p = Some c /\
             forall numbers held request,
               Heu.expand_request repr_float p config
               = Ok (numbers, held, request) ->
               req_problem request = problem state /\
               req_candidate request
               = Heu.hint_prefix ++ Candidate_str repr_float c /\
               occurs_in (repr_tokens repr_float (tokens (Cand.candidate c)))
                         (req_candidate request) /\
               occurs_in (repr_score repr_float (Cand.score c))
                         (req_candidate request))
          (candidates state) payloads.
Proof.
  pose proof (heu_expansion_passes_seed repr_float state config payloads Hroute)
    as H.
  apply heu_should_terminate_sends in Hroute. subst payloads.
  induction (candidates state) as [| c cs IH]; simpl in *; constructor.
  - inversion H as [| ? ? ? ? (Hseed & Hrequest) _]; subst.
    split; [reflexivity | split; [exact Hseed |]].
    intros numbers held request Hreq.
    destruct (Hrequest numbers held request Hreq) as (Hc & Htokens & Hscore).
    split; [| auto].
    unfold Heu.expand_request in Hreq.
    apply bind_ok_inv in Hreq as (ns & _ & Hreq).
    apply bind_ok_inv in Hreq as (prepared & _ & Hreq).
    now injection Hreq as <- <- <-.
  - apply IH. now inversion H.
Qed.

Lemma heu_fan_out_carries_seed_witness :
  let member := {| Cand.candidate := {| tokens := [Num 1; Num 1; Op Add;
                                                   Num 4; Op Add; Num 6; Op Add] |};
                   Cand.score := Some (1 # 13);
                   Cand.feedback := Some "Result: 12.0" |} in
  let state := {| problem := "1 1 4 6"; candidates := [member];
                  scored_candidates := []; depth := 1%Z |} in
  exists p : ExpansionState,
    Heu.should_terminate state Heu.batch_config = Ok (Sends [p]) /\
    seed p = Some member /\
    forall numbers held request,
      Heu.expand_request (fun _ => "12.0") p Heu.batch_config
      = Ok (numbers, held, request) ->
      occurs_in (repr_score (fun _ => "12.0") (Cand.score member))
                (req_candidate request).
Proof.
  intros member state.
  pose proof (heu_fan_out_carries_seed
                (fun _ => "12.0") state Heu.batch_config
                [with_seed state member] eq_refl) as H.
  exists (with_seed state member). split; [reflexivity |].
  inversion H as [| c p cs ps (_ & Hseed & Hrequest) _]; subst.
  split; [exact Hseed |].
  intros numbers held request Hreq.
  now destruct (Hrequest numbers held request Hreq) as (_ & _ & _ & Hscore).
Defined.

(** ** The evaluator and expression trees *)

Lemma run_tokens_to_rpn (e : Expr) :
  forall (rest : list TokenType) (stack : list Q),
    run_tokens (to_rpn e ++ rest)%list stack
    = (v <- eval e ;; run_tokens rest (v :: stack)).
Proof.
  induction e as [x | o l IHl r IHr]; intros rest stack; simpl.
  - reflexivity.
  - rewrite <- !app_assoc, IHl.
    destruct (eval l) as [a | x]; simpl; [| reflexivity].
    rewrite IHr. destruct (eval r) as [b | x]; simpl; [| reflexivity].
    destruct (op_funcs o a b); reflexivity.
Qed.

(** X20: on the reverse-polish form of an expression tree [compute]
    returns the value of the tree, the operand written first being the
    left one; it raises only the [ZeroDivisionError] of a division whose
    right operand is zero, never an [IndexError]. *)
Theorem compute_to_rpn (e : Expr) :
  compute {| tokens := to_rpn e |} = eval e /\
  forall x : exn,
    compute {| tokens := to_rpn e |} = Raise x ->
    x = ZeroDivisionError "float division by zero".
Proof.
  assert (Hvalue : compute {| tokens := to_rpn e |} = eval e).
  { unfold compute. simpl.
    rewrite <- (app_nil_r (to_rpn e)), run_tokens_to_rpn.
    destruct (eval e); reflexivity. }
  split; [exact Hvalue |].
  rewrite Hvalue. clear Hvalue.
  induction e as [v | o l IHl r IHr]; intros x H; simpl in H; [discriminate |].
  apply bind_raise_inv in H as [H | (a & _ & H)]; [now apply IHl |].
  apply bind_raise_inv in H as [H | (b & _ & H)]; [now apply IHr |].
  now apply op_funcs_raise in H.
Qed.

(** (13 + 11) + 1 / 11, the proposal used above for the threshold. *)
Example compute_to_rpn_example :
  to_rpn (Bin Add (Bin Add (Lit 13) (Lit 11)) (Bin Div (Lit 1) (Lit 11)))
  = [Num 13; Num 11; Op Add; Num 1; Num 11; Op Div; Op Add].
Proof. reflexivity. Qed.

(** ** Steps and rounds *)

Section StepsPerRound.
Variable repr_float : Q -> string.
Variable default_max_depth : Z.
Variable expand :
  (Request -> Submission) -> ExpansionState -> RunnableConfig -> result Update.
Variable should_terminate : ToTState -> RunnableConfig -> result Route.
Variable solver : nat -> Request -> Submission.
Variable config : RunnableConfig.
Hypothesis expand_keeps_depth :
  forall invoke state u, expand invoke state config = Ok u -> upd_depth u = None.

(** The steps left in the round in which [p] is scheduled. *)
Let steps_left (p : Pending) : Z :=
  match p with
  | ToExpand _ => 3
  | ToScore => 2
  | ToPrune => 1
  end.

Lemma run_steps_three_per_round (limit : nat) :
  forall (p : Pending) (state final : ToTState) (n : nat),
    run_steps repr_float default_max_depth expand should_terminate solver
              limit config p state n = Ok final ->
    (3 * (depth final - depth state - 1) + steps_left p <= Z.of_nat limit)%Z.
Proof.
  induction limit as [| limit IH]; intros p state final n H;
    simpl in H; [discriminate |].
  apply bind_ok_inv in H as (((state' & n') & next) & Hstep & H).
  destruct p as [inputs | |]; simpl in Hstep.
  - apply bind_ok_inv in Hstep as (us & Hus & Hstep).
    injection Hstep as <- <- <-. apply IH in H.
    rewrite (expand_all_keeps_depth expand solver config expand_keeps_depth
                                    _ _ _ _ Hus) in H.
    simpl in *. lia.
  - apply bind_ok_inv in Hstep as (u & Hu & Hstep). injection Hstep as <- <- <-.
    apply IH in H.
    unfold score in Hu. apply bind_ok_inv in Hu as (scored & _ & Hu).
    injection Hu as <-. simpl in *. lia.
  - apply bind_ok_inv in Hstep as (r & Hr & Hstep).
    destruct r as [| payloads]; injection Hstep as <- <- <-.
    + injection H as <-. unfold steps_left, apply_update, prune.
      cbn [depth upd_depth]. rewrite Nat2Z.inj_succ. lia.
    + apply IH in H. unfold steps_left, apply_update, prune in *.
      cbn [depth upd_depth] in *. rewrite Nat2Z.inj_succ. lia.
Qed.
End StepsPerRound.

(** X21: every round takes three steps of the engine, so a run that ends
    has a final depth of at most a third of the step ceiling.  With the
    configurations of [run_tot_on_many_problems] (ceiling 25 and depth
    budget 10 in the heuristic notebook, ceiling 100 and depth budget 50
    in the chain-of-thought notebook) no run ends because its depth
    budget is used up: a run that ends does so below the budget. *)
Theorem rounds_bounded_by_step_ceiling (repr_float : Q -> string)
  (solver : nat -> Request -> Submission) (problem : string)
  (final : ToTState) :
  (forall config : RunnableConfig,
      Heu.run_graph repr_float solver problem config = Ok final \/
      CoT.run_graph repr_float solver problem config = Ok final ->
      (3 * depth final <= Z.of_nat (get (recursion_limit config) 25%nat))%Z) /\
  (Heu.run_graph repr_float solver problem Heu.batch_config = Ok final ->
   (depth final <= 8)%Z /\
   (depth final
    < max_depth (_ensure_configurable Heu.default_max_depth Heu.batch_config))%Z) /\
  (CoT.run_graph repr_float solver problem CoT.batch_config = Ok final ->
   (depth final <= 33)%Z /\
   (depth final
    < max_depth (_ensure_configurable CoT.default_max_depth CoT.batch_config))%Z).
Proof.
  assert (Hgeneral : forall config : RunnableConfig,
             Heu.run_graph repr_float solver problem config = Ok final \/
             CoT.run_graph repr_float solver problem config = Ok final ->
             (3 * depth final
              <= Z.of_nat (get (recursion_limit config) 25%nat))%Z).
  { intros config [Hrun | Hrun].
    - unfold Heu.run_graph, run_graph in Hrun.
      apply run_steps_three_per_round in Hrun.
      + change (depth (initial_state problem)) with 0%Z in Hrun. lia.
      + intros invoke state u. apply heu_expand_keeps_depth.
    - unfold CoT.run_graph, run_graph in Hrun.
      apply run_steps_three_per_round in Hrun.
      + change (depth (initial_state problem)) with 0%Z in Hrun. lia.
      + intros invoke state u. apply cot_expand_keeps_depth. }
  split; [exact Hgeneral | split]; intros Hrun.
  - pose proof (Hgeneral Heu.batch_config (or_introl Hrun)) as H.
    change (Z.of_nat (get (recursion_limit Heu.batch_config) 25%nat))
      with 25%Z in H.
    change (max_depth (_ensure_configurable Heu.default_max_depth
                                            Heu.batch_config)) with 10%Z.
    lia.
  - pose proof (Hgeneral CoT.batch_config (or_intror Hrun)) as H.
    change (Z.of_nat (get (recursion_limit CoT.batch_config) 25%nat))
      with 100%Z in H.
    change (max_depth (_ensure_configurable CoT.default_max_depth
                                            CoT.batch_config)) with 50%Z.
    lia.
Qed.
